(** * QueueCTL: the job store, the retry policy and the worker loop

    A shallow embedding of [CLIWORK/models.py], [CLIWORK/storage.py],
    [CLIWORK/worker.py] and the store-facing commands of [CLIWORK/cli.py].

    Conventions of the model.
    - Instants ([datetime.utcnow()], [time.time()]) are integers, in seconds.
      The [locked_until] column, a REAL, is an integer number of seconds.
    - [created_at] is the TEXT the table stores; SQLite orders it bytewise,
      which is [String.leb].
    - [next_retry_at] is NULL or a TEXT; the text either parses with
      [datetime.fromisoformat] to an instant or it does not.
    - Configuration values are the integers [int(value)] produces; a float or
      a string in the configuration file is outside the model.  So is the
      float that [backoff_base ** (attempts - 1)] is for a negative exponent:
      what is stated of a retry assumes [1 ≤ attempts].
    - The [state] column holds one of the five values of [JobState]; another
      text, which [enqueue] of a JSON object can store, is outside the model.
    - Integers are unbounded, as Python's are; running out of memory on a
      huge power is outside the model.
    - Every method of [JobStorage] is one SQLite transaction (or one file
      access).  The environment may make it fail: the store carries an oracle
      with one flag per call, and a flagged call raises before it commits, so
      the database is as it was.
    - The store keeps a trace of the calls made on it and of the worker's log
      lines.  The trace is ghost state: no operation reads it. *)

From stdpp Require Import base list gmap strings sorting pretty.
From Stdlib Require Import ZArith Lia.

Local Open Scope Z_scope.
Set Warnings "-clear-no-such-hyp".

(** ** models.py *)

Inductive JobState := PENDING | PROCESSING | COMPLETED | FAILED | DEAD.

#[global] Instance JobState_eq_dec : EqDecision JobState.
Proof. solve_decision. Defined.

(** The text held by a non-NULL [next_retry_at]. *)
Inductive retry_text :=
| Iso (t : Z)      (* parses to the instant [t] *)
| Malformed.       (* empty, or rejected by [datetime.fromisoformat] *)

Record Job := mkJob {
  id : string;
  command : string;
  state : JobState;
  attempts : Z;
  max_retries : Z;
  created_at : string;
  updated_at : Z;
  next_retry_at : option retry_text;
  error_message : option string
}.

Definition set_state (s : JobState) (j : Job) : Job :=
  mkJob (id j) (command j) s (attempts j) (max_retries j) (created_at j)
        (updated_at j) (next_retry_at j) (error_message j).

Definition set_attempts (a : Z) (j : Job) : Job :=
  mkJob (id j) (command j) (state j) a (max_retries j) (created_at j)
        (updated_at j) (next_retry_at j) (error_message j).

Definition set_updated_at (t : Z) (j : Job) : Job :=
  mkJob (id j) (command j) (state j) (attempts j) (max_retries j) (created_at j)
        t (next_retry_at j) (error_message j).

Definition set_next_retry_at (r : option retry_text) (j : Job) : Job :=
  mkJob (id j) (command j) (state j) (attempts j) (max_retries j) (created_at j)
        (updated_at j) r (error_message j).

Definition set_error_message (e : option string) (j : Job) : Job :=
  mkJob (id j) (command j) (state j) (attempts j) (max_retries j) (created_at j)
        (updated_at j) (next_retry_at j) e.

(** ** The persisted layout *)

(** A row of table [jobs]: the columns of a [Job] and [locked_until]. *)
Record row := mkRow {
  row_job : Job;
  locked_until : Z
}.

(** A row of table [dlq]; [job_data] is the JSON snapshot [job.to_json()]. *)
Record dlq_row := mkDlq {
  dlq_id : string;
  job_data : Job;
  moved_at : Z;
  reason : string
}.

Inductive method :=
| m_add_job | m_get_job | m_get_ready_jobs | m_update_job | m_delete_job
| m_move_to_dlq | m_get_dlq_job | m_remove_from_dlq | m_get_config
| m_set_config | m_acquire_job_lock | m_release_job_lock
| m_clear_expired_locks.

#[global] Instance method_eq_dec : EqDecision method.
Proof. solve_decision. Defined.

Inductive exn :=
| OperationalError       (* sqlite3 or file I/O failure *)
| IntegrityError         (* UNIQUE constraint failed: dlq.id *)
| ZeroDivisionError      (* 0 ** n with n negative *)
| OverflowError          (* a date outside datetime.min .. datetime.max *)
| ValueError.            (* time.sleep of a negative length *)

Inductive logline :=
| LogStarted | LogStopped | LogError (e : exn)
| LogExecuting (i : string) | LogCompleted (i : string)
| LogRetry (i : string) (delay : Z) | LogToDlq (i : string).

Inductive event :=
| Called (m : method) (arg : string)
| Printed (l : logline)
| Slept (seconds : Z).

(** The store: both tables in rowid order, the configuration file, the
    clock, the fault oracle and the trace. *)
Record world := mkWorld {
  jobs : list row;
  dlq : list dlq_row;
  config : gmap string Z;
  clock : Z;
  faults : list bool;
  trace : list event
}.

Definition set_jobs (js : list row) (w : world) : world :=
  mkWorld js (dlq w) (config w) (clock w) (faults w) (trace w).

Definition set_dlq (d : list dlq_row) (w : world) : world :=
  mkWorld (jobs w) d (config w) (clock w) (faults w) (trace w).

Definition set_config_file (c : gmap string Z) (w : world) : world :=
  mkWorld (jobs w) (dlq w) c (clock w) (faults w) (trace w).

Definition set_clock (t : Z) (w : world) : world :=
  mkWorld (jobs w) (dlq w) (config w) t (faults w) (trace w).

Definition set_faults (f : list bool) (w : world) : world :=
  mkWorld (jobs w) (dlq w) (config w) (clock w) f (trace w).

Definition emit (e : event) (w : world) : world :=
  mkWorld (jobs w) (dlq w) (config w) (clock w) (faults w) (trace w ++ [e]).

(** ** Exceptions and state *)

Inductive result (A : Type) :=
| Ok (a : A)
| Raise (e : exn).
Arguments Ok {A} a.
Arguments Raise {A} e.

Definition M (S A : Type) : Type := S → result A * S.

Definition ret {S A} (a : A) : M S A := λ s, (Ok a, s).

Definition raise {S A} (e : exn) : M S A := λ s, (Raise e, s).

Definition bind {S A B} (m : M S A) (k : A → M S B) : M S B :=
  λ s, match m s with
       | (Ok a, s') => k a s'
       | (Raise e, s') => (Raise e, s')
       end.

Notation "'do' x <- m ; k" := (bind m (λ x, k))
  (at level 10, x name, m at level 100, k at level 200).

(** [try: m except Exception as e: h e] *)
Definition try_except {S A} (m : M S A) (h : exn → M S A) : M S A :=
  λ s, match m s with
       | (Ok a, s') => (Ok a, s')
       | (Raise e, s') => h e s'
       end.

(** [try: m finally: f].  An exception of [f] replaces the outcome of [m]. *)
Definition try_finally {S A} (m : M S A) (f : M S unit) : M S A :=
  λ s, match m s with
       | (r, s') => match f s' with
                    | (Ok _, s'') => (r, s'')
                    | (Raise e, s'') => (Raise e, s'')
                    end
       end.

(** A [JobStorage] method: the call is traced, the oracle is consulted, and
    the body runs as one transaction unless the oracle makes it fail. *)
Definition storage_call {A} (m : method) (arg : string)
    (body : world → result A * world) : M world A :=
  λ w, let w1 := emit (Called m arg) w in
       match faults w1 with
       | true :: fs => (Raise OperationalError, set_faults fs w1)
       | false :: fs => body (set_faults fs w1)
       | [] => body w1
       end.

(** Methods that receive a [Job] object work on the pair of the object and
    the store, since they assign to the object's attributes. *)
Definition on_store {A} (m : M world A) : M (Job * world) A :=
  λ '(j, w), match m w with (r, w') => (r, (j, w')) end.

Definition assign (f : Job → Job) : M (Job * world) unit :=
  λ '(j, w), (Ok tt, (f j, w)).

Definition the_job : M (Job * world) Job :=
  λ '(j, w), (Ok j, (j, w)).

Definition utcnow : M (Job * world) Z :=
  λ '(j, w), (Ok (clock w), (j, w)).

(** ** storage.py *)

Fixpoint find_row (i : string) (js : list row) : option row :=
  match js with
  | [] => None
  | r :: rest => if decide (id (row_job r) = i) then Some r else find_row i rest
  end.

Definition remove_row (i : string) (js : list row) : list row :=
  filter (λ r, id (row_job r) ≠ i) js.

Fixpoint find_dlq (i : string) (d : list dlq_row) : option dlq_row :=
  match d with
  | [] => None
  | r :: rest => if decide (dlq_id r = i) then Some r else find_dlq i rest
  end.

Definition remove_dlq (i : string) (d : list dlq_row) : list dlq_row :=
  filter (λ r, dlq_id r ≠ i) d.

(** [UPDATE jobs SET ... WHERE id = ?]: the row keeps its place. *)
Definition update_row (i : string) (f : row → row) (js : list row) : list row :=
  (λ r, if decide (id (row_job r) = i) then f r else r) <$> js.

(** [INSERT OR REPLACE INTO jobs (id, command, state, attempts, max_retries,
    created_at, updated_at, error_message)]: a row with the same id is
    deleted, the new row goes to the end with the columns that are not
    listed at their defaults, [next_retry_at] NULL and [locked_until] 0. *)
Definition add_job : M (Job * world) unit :=
  λ '(j0, w0),
    let j := set_updated_at (clock w0) j0 in
    on_store (storage_call m_add_job (id j) (λ w,
      let r := mkRow (set_next_retry_at None j) 0 in
      (Ok tt, set_jobs (remove_row (id j) (jobs w) ++ [r]) w))) (j, w0).

Definition get_job (i : string) : M world (option Job) :=
  storage_call m_get_job i (λ w, (Ok (row_job <$> find_row i (jobs w)), w)).

(** The statements of [acquire_job_lock]: the [SELECT locked_until], the
    test [locked_until < current_time] on what was read (no row: no lock to
    take), and the [UPDATE jobs SET locked_until = ?]. *)
Definition select_locked_until (i : string) (js : list row) : option Z :=
  locked_until <$> find_row i js.

Definition lock_is_free (current_time : Z) (read : option Z) : bool :=
  match read with
  | None => false
  | Some l => bool_decide (l < current_time)
  end.

Definition update_locked_until (i : string) (t : Z) (js : list row) : list row :=
  update_row i (λ r, mkRow (row_job r) t) js.

Definition acquire_job_lock (i : string) (duration_seconds : Z) : M world bool :=
  storage_call m_acquire_job_lock i (λ w,
    let current_time := clock w in
    if lock_is_free current_time (select_locked_until i (jobs w)) then
      let new_lock_time := current_time + duration_seconds in
      (Ok true, set_jobs (update_locked_until i new_lock_time (jobs w)) w)
    else (Ok false, w)).

Definition release_job_lock (i : string) : M world unit :=
  storage_call m_release_job_lock i (λ w,
    (Ok tt, set_jobs (update_locked_until i 0 (jobs w)) w)).

(** [UPDATE jobs SET locked_until = 0 WHERE locked_until < ? AND
    locked_until > 0] *)
Definition clear_expired_locks : M world unit :=
  storage_call m_clear_expired_locks "" (λ w,
    let current_time := clock w in
    (Ok tt,
     set_jobs ((λ r, if bool_decide (locked_until r < current_time ∧ locked_until r > 0)
                     then mkRow (row_job r) 0 else r) <$> jobs w) w)).

(** [ORDER BY created_at] *)
Definition created_le (a b : row) : Prop :=
  String.leb (created_at (row_job a)) (created_at (row_job b)).

#[global] Instance created_le_dec a b : Decision (created_le a b).
Proof. unfold created_le. apply _. Defined.

Definition rows_by_state (s : JobState) (js : list row) : list row :=
  filter (λ r, state (row_job r) = s) js.

(** What the loop over [failed_rows] keeps: the text is empty or does not
    parse ([next_retry] stays [None]), or it parses to an instant that is
    not after [now]. *)
Definition retry_due (now : Z) (r : row) : bool :=
  match next_retry_at (row_job r) with
  | None => true
  | Some Malformed => true
  | Some (Iso t) => bool_decide (t ≤ now)
  end.

(** The second query has [next_retry_at IS NOT NULL] and no [ORDER BY]: its
    rows come in rowid order. *)
Definition get_ready_jobs : M world (list Job) :=
  storage_call m_get_ready_jobs "" (λ w,
    let pending_rows := merge_sort created_le (rows_by_state PENDING (jobs w)) in
    let failed_rows :=
      filter (λ r, next_retry_at (row_job r) ≠ None) (rows_by_state FAILED (jobs w)) in
    let now := clock w in
    (Ok ((row_job <$> pending_rows)
         ++ (row_job <$> filter (λ r, retry_due now r) failed_rows)), w)).

(** [UPDATE jobs SET command = ?, ..., error_message = ? WHERE id = ?]:
    every column but [id] and [locked_until]. *)
Definition update_job : M (Job * world) unit :=
  λ '(j0, w0),
    let j := set_updated_at (clock w0) j0 in
    on_store (storage_call m_update_job (id j) (λ w,
      (Ok tt,
       set_jobs (update_row (id j) (λ r, mkRow j (locked_until r)) (jobs w)) w)))
      (j, w0).

Definition delete_job (i : string) : M world unit :=
  storage_call m_delete_job i (λ w, (Ok tt, set_jobs (remove_row i (jobs w)) w)).

(** [INSERT INTO dlq] then [DELETE FROM jobs], committed together.  [id] is
    the primary key of [dlq]: the insert raises when the id is there. *)
Definition move_to_dlq (reason : string) : M (Job * world) unit :=
  λ '(j, w0),
    on_store (storage_call m_move_to_dlq (id j) (λ w,
      let moved_at := clock w in
      match find_dlq (id j) (dlq w) with
      | Some _ => (Raise IntegrityError, w)
      | None =>
          (Ok tt,
           set_jobs (remove_row (id j) (jobs w))
             (set_dlq (dlq w ++ [mkDlq (id j) j moved_at reason]) w))
      end)) (j, w0).

Definition get_dlq_job (i : string) : M world (option Job) :=
  storage_call m_get_dlq_job i (λ w, (Ok (job_data <$> find_dlq i (dlq w)), w)).

Definition remove_from_dlq (i : string) : M world unit :=
  storage_call m_remove_from_dlq i (λ w, (Ok tt, set_dlq (remove_dlq i (dlq w)) w)).

Definition get_config : M world (gmap string Z) :=
  storage_call m_get_config "" (λ w, (Ok (config w), w)).

Definition set_config (key : string) (value : Z) : M world unit :=
  do config <- get_config;
  storage_call m_set_config key (λ w,
    (Ok tt, set_config_file (<[key := value]> config) w)).

(** ** worker.py *)

(** What [subprocess.run(job.command, shell=True, capture_output=True,
    text=True, timeout=300.0)] does; the command is run by the environment. *)
Inductive outcome :=
| Exited (returncode : Z) (stdout stderr : string)
| TimeoutExpired
| LaunchError (msg : string).

(** [str(e)] *)
Definition exn_str (e : exn) : string :=
  match e with
  | OperationalError => "database is locked"
  | IntegrityError => "UNIQUE constraint failed: dlq.id"
  | ZeroDivisionError => "0.0 cannot be raised to a negative power"
  | OverflowError => "date value out of range"
  | ValueError => "sleep length must be non-negative"
  end.

Definition print (l : logline) : M (Job * world) unit :=
  λ '(j, w), (Ok tt, (j, emit (Printed l) w)).

(** [config.get(key, default)] *)
Definition config_get (key : string) (dflt : Z) (config : gmap string Z) : Z :=
  default dflt (config !! key).

(** [min(backoff_base ** (job.attempts - 1), backoff_max)], for an exponent
    that is not negative: [1 ≤ attempts], which is so when [attempts] counts
    the execution that failed. *)
Definition retry_delay (backoff_base backoff_max attempts : Z) : Z :=
  Z.min (backoff_base ^ (attempts - 1)) backoff_max.

(** The same expression as the statement runs it.  With a negative exponent
    [0 ** n] raises.  With a negative exponent and another base Python
    computes a float, of magnitude at most 1; floats are outside the model,
    which goes on with [retry_delay], and every statement of what the retry
    branch computes assumes [1 ≤ attempts]. *)
Definition backoff_delay {S} (backoff_base backoff_max attempts : Z) : M S Z :=
  if bool_decide (backoff_base = 0 ∧ attempts - 1 < 0) then raise ZeroDivisionError
  else ret (retry_delay backoff_base backoff_max attempts).

(** [datetime.min] and [datetime.max], in seconds since the epoch:
    0001-01-01T00:00:00 and the last second of 9999-12-31. *)
Definition datetime_min : Z := -62135596800.
Definition datetime_max : Z := 253402300799.

(** [now + timedelta(seconds=delay)]: [timedelta] or the addition raises
    [OverflowError] when the result is not a date. *)
Definition add_seconds {S} (now delay : Z) : M S Z :=
  if bool_decide (datetime_min ≤ now + delay ≤ datetime_max) then ret (now + delay)
  else raise OverflowError.

(** [f"Max retries ({max_retries}) exceeded. Last error: {error_message}"] *)
Definition dlq_reason (max_retries : Z) (error_message : string) : string :=
  "Max retries (" +:+ pretty max_retries +:+ ") exceeded. Last error: "
    +:+ error_message.

(** The body only computes two local values. *)
Definition _check_and_reschedule_failed_job (max_retries : Z) : M (Job * world) unit :=
  ret tt.

Definition _handle_job_failure (error_message : string) : M (Job * world) unit :=
  do config <- on_store get_config;
  let max_retries := config_get "max_retries" 3 config in
  let backoff_base := config_get "backoff_base" 2 config in
  let backoff_max := config_get "backoff_max_seconds" 600 config in
  do job <- the_job;
  if bool_decide (attempts job < max_retries) then
    do delay <- backoff_delay backoff_base backoff_max (attempts job);
    do now <- utcnow;
    do next_retry <- add_seconds now delay;
    do _ <- assign (set_state FAILED);
    do _ <- assign (set_error_message (Some error_message));
    do _ <- assign (set_next_retry_at (Some (Iso next_retry)));
    do _ <- print (LogRetry (id job) delay);
    do _ <- update_job;
    _check_and_reschedule_failed_job max_retries
  else
    do _ <- assign (set_state DEAD);
    do _ <- assign (set_error_message (Some error_message));
    do _ <- print (LogToDlq (id job));
    move_to_dlq (dlq_reason max_retries error_message).

(** The [try] block of [_execute_job] with its two handlers.  An exception
    of [subprocess.run] other than the timeout, and any exception of the
    statements after it, reaches [except Exception]; an exception raised by
    a handler leaves the statement. *)
Definition execute_guarded (oc : outcome) : M (Job * world) unit :=
  match oc with
  | TimeoutExpired => _handle_job_failure "Job execution timeout"
  | LaunchError msg => _handle_job_failure msg
  | Exited returncode stdout stderr =>
      try_except
        (if bool_decide (returncode = 0) then
           do _ <- assign (set_state COMPLETED);
           do _ <- assign (set_error_message None);
           do job <- the_job;
           do _ <- print (LogCompleted (id job));
           update_job
         else
           _handle_job_failure (if decide (stderr = "") then stdout else stderr))
        (λ e, _handle_job_failure (exn_str e))
  end.

Definition _execute_job (oc : outcome) : M (Job * world) unit :=
  do _ <- assign (set_state PROCESSING);
  do job <- the_job;
  do _ <- assign (set_attempts (attempts job + 1));
  do _ <- update_job;
  do _ <- print (LogExecuting (id job));
  try_finally (execute_guarded oc) (on_store (release_job_lock (id job))).

(** Runs a method on a job object and hands the object back. *)
Definition with_job (job : Job) (m : M (Job * world) unit) : M world Job :=
  λ w, match m (job, w) with
       | (Ok _, (job', w')) => (Ok job', w')
       | (Raise e, (_, w')) => (Raise e, w')
       end.

Fixpoint first_lockable (ready_jobs : list Job) : M world (option Job) :=
  match ready_jobs with
  | [] => ret None
  | job :: rest =>
      do locked <- acquire_job_lock (id job) 300;
      if locked : bool then
        if decide (state job = FAILED) then
          do job' <- with_job job
                       (do _ <- assign (set_state PENDING);
                        do _ <- assign (set_next_retry_at None);
                        update_job);
          ret (Some job')
        else ret (Some job)
      else first_lockable rest
  end.

Definition _get_next_job : M world (option Job) :=
  do ready_jobs <- get_ready_jobs;
  first_lockable ready_jobs.

(** One turn of the [while self.running] loop, as the environment sees it:
    the time that has passed since the previous turn, whether a shutdown
    signal has set [self.running = False] before the test, and what the
    command does if one is run. *)
Record turn := mkTurn {
  elapsed : Z;
  signalled : bool;
  run_outcome : outcome
}.

(** [time.sleep(poll_interval)]; a negative length is refused. *)
Definition sleep (poll_interval : Z) : M world unit :=
  if bool_decide (poll_interval < 0) then raise ValueError
  else λ w, (Ok tt, set_clock (clock w + poll_interval) (emit (Slept poll_interval) w)).

Definition poll_cycle (poll_interval : Z) (oc : outcome) : M world unit :=
  do _ <- clear_expired_locks;
  do job <- _get_next_job;
  match job with
  | Some job => do _ <- with_job job (_execute_job oc); ret tt
  | None => sleep poll_interval
  end.

(** The loop.  [true]: the test [self.running] failed and the loop was left;
    [false]: the turns given are used up and the worker is still looping. *)
Fixpoint run_loop (poll_interval : Z) (turns : list turn) : M world bool :=
  match turns with
  | [] => ret false
  | t :: rest =>
      λ w, let w := set_clock (clock w + elapsed t) w in
           if signalled t then (Ok true, w)
           else (do _ <- poll_cycle poll_interval (run_outcome t);
                 run_loop poll_interval rest) w
  end.

Inductive run_status :=
| Stopped                 (* the loop was left on [self.running = False] *)
| StoppedOnError (e : exn)  (* the loop was left by an exception *)
| Looping.                (* still in the loop after the turns given *)

Definition run (poll_interval : Z) (turns : list turn) (w : world)
    : run_status * world :=
  let w := emit (Printed LogStarted) w in
  match run_loop poll_interval turns w with
  | (Ok true, w') => (Stopped, emit (Printed LogStopped) w')
  | (Ok false, w') => (Looping, w')
  | (Raise e, w') =>
      (StoppedOnError e, emit (Printed LogStopped) (emit (Printed (LogError e)) w'))
  end.

(** ** cli.py: the commands that write to the store *)

(** [queuectl enqueue]: the job built from the arguments goes to [add_job];
    an exception is reported and the exit status is 1. *)
Definition enqueue (job : Job) (w : world) : Z * world :=
  match add_job (job, w) with
  | (Ok _, (_, w')) => (0, w')
  | (Raise _, (_, w')) => (1, w')
  end.

(** [queuectl dlq retry JOB_ID] *)
Definition dlq_retry (job_id : string) (w : world) : Z * world :=
  match get_dlq_job job_id w with
  | (Raise _, w1) => (1, w1)
  | (Ok None, w1) => (1, w1)
  | (Ok (Some job), w1) =>
      let job := set_next_retry_at None
                   (set_error_message None (set_attempts 0 (set_state PENDING job))) in
      match add_job (job, w1) with
      | (Raise _, (_, w2)) => (1, w2)
      | (Ok _, (_, w2)) =>
          match remove_from_dlq job_id w2 with
          | (Raise _, w3) => (1, w3)
          | (Ok _, w3) => (0, w3)
          end
      end
  end.

(** [queuectl dlq remove JOB_ID] *)
Definition dlq_remove (job_id : string) (w : world) : Z * world :=
  match get_dlq_job job_id w with
  | (Raise _, w1) => (1, w1)
  | (Ok None, w1) => (1, w1)
  | (Ok (Some _), w1) =>
      match remove_from_dlq job_id w1 with
      | (Raise _, w2) => (1, w2)
      | (Ok _, w2) => (0, w2)
      end
  end.

(** [@click.confirmation_option(prompt=...)] on a command: unless [--yes] is
    given the user is asked, and an answer that is not yes aborts with
    status 1 before the function of the command is called. *)
Definition confirmation_option (confirmed : bool) (command : world → Z * world)
    : world → Z * world :=
  λ w, if confirmed then command w else (1, w).

(** The function [delete(job_id)] of [queuectl delete JOB_ID]; the command
    is [confirmation_option confirmed (delete job_id)]. *)
Definition delete (job_id : string) (w : world) : Z * world :=
  match get_job job_id w with
  | (Raise _, w1) => (1, w1)
  | (Ok None, w1) => (1, w1)
  | (Ok (Some _), w1) =>
      match delete_job job_id w1 with
      | (Raise _, w2) => (1, w2)
      | (Ok _, w2) => (0, w2)
      end
  end.

(** [queuectl config set KEY VALUE], with [VALUE] an integer. *)
Definition config_set (key : string) (value : Z) (w : world) : Z * world :=
  match set_config key value w with
  | (Raise _, w1) => (1, w1)
  | (Ok _, w1) => (0, w1)
  end.

(** ** storage.py and cli.py: the listings *)

(** A reading method that the commands use and the worker does not: the
    oracle is consulted as for any call; the call is not put in the trace,
    which follows the worker. *)
Definition storage_query {A} (body : world → A) : M world A :=
  λ w, match faults w with
       | true :: fs => (Raise OperationalError, set_faults fs w)
       | false :: fs => (Ok (body w), set_faults fs w)
       | [] => (Ok (body w), w)
       end.

(** [SELECT * FROM jobs WHERE state = ? ORDER BY created_at] *)
Definition get_jobs_by_state (s : JobState) : M world (list Job) :=
  storage_query (λ w, row_job <$> merge_sort created_le (rows_by_state s (jobs w))).

(** [ORDER BY created_at DESC] *)
Definition created_ge (a b : row) : Prop := created_le b a.

#[global] Instance created_ge_dec a b : Decision (created_ge a b).
Proof. unfold created_ge. apply _. Defined.

(** [SELECT * FROM jobs ORDER BY created_at DESC] *)
Definition get_all_jobs : M world (list Job) :=
  storage_query (λ w, row_job <$> merge_sort created_ge (jobs w)).

(** [ORDER BY moved_at DESC]; [moved_at] is an instant. *)
Definition moved_ge (a b : dlq_row) : Prop := moved_at b ≤ moved_at a.

#[global] Instance moved_ge_dec a b : Decision (moved_ge a b).
Proof. unfold moved_ge. apply _. Defined.

(** [SELECT job_data FROM dlq ORDER BY moved_at DESC], each row through
    [Job.from_json]. *)
Definition get_dlq_jobs : M world (list Job) :=
  storage_query (λ w, job_data <$> merge_sort moved_ge (dlq w)).

(** [state.value] and the members of [JobState], in the order of the class. *)
Definition state_value (s : JobState) : string :=
  match s with
  | PENDING => "pending"
  | PROCESSING => "processing"
  | COMPLETED => "completed"
  | FAILED => "failed"
  | DEAD => "dead"
  end.

Definition JobState_members : list JobState :=
  [PENDING; PROCESSING; COMPLETED; FAILED; DEAD].

(** [SELECT state, COUNT( * ) as count FROM jobs GROUP BY state]: one row for
    each state that some job is in, among the states the model has (a
    [state] text that is not a value of [JobState] would have a row too). *)
Definition group_by_state (js : list row) : list (string * nat) :=
  omap (λ s, let count := length (rows_by_state s js) in
             if decide (count = 0%nat) then None else Some (state_value s, count))
       JobState_members.

(** [counts = {state.value: 0 for state in JobState}], then
    [counts[state] = count] for each row of the query. *)
Definition count_jobs_by_state : M world (gmap string nat) :=
  storage_query (λ w,
    foldl (λ counts row, <[row.1 := row.2]> counts)
          (list_to_map ((λ s, (state_value s, 0%nat)) <$> JobState_members))
          (group_by_state (jobs w))).

(** [jobs[:limit]]: a negative [limit] counts from the end. *)
Definition slice_to {A} (limit : Z) (l : list A) : list A :=
  if bool_decide (0 ≤ limit) then take (Z.to_nat limit) l
  else take (length l - Z.to_nat (- limit)) l.

(** [queuectl list --state STATE --limit N]: the jobs it prints. *)
Definition list_jobs (state : option JobState) (limit : Z) (w : world)
    : Z * list Job * world :=
  match (match state with
         | Some s => get_jobs_by_state s
         | None => get_all_jobs
         end) w with
  | (Ok jobs, w') => (0, slice_to limit jobs, w')
  | (Raise _, w') => (1, [], w')
  end.

(** [queuectl status]: the count of each state and the number of
    dead-letter jobs it prints. *)
Definition status (w : world) : Z * option (gmap string nat * nat) * world :=
  match count_jobs_by_state w with
  | (Raise _, w1) => (1, None, w1)
  | (Ok counts, w1) =>
      match get_dlq_jobs w1 with
      | (Raise _, w2) => (1, None, w2)
      | (Ok dlq_jobs, w2) => (0, Some (counts, length dlq_jobs), w2)
      end
  end.

(** [queuectl config get KEY]: the value it prints, or status 1 when the key
    is not in the configuration. *)
Definition config_get_key (key : string) (w : world) : Z * option Z * world :=
  match get_config w with
  | (Raise _, w1) => (1, None, w1)
  | (Ok cfg, w1) =>
      match cfg !! key with
      | None => (1, None, w1)
      | Some v => (0, Some v, w1)
      end
  end.

(** ** Two connections in acquire_job_lock *)

(** A call of [acquire_job_lock] as the database sees it.  The [SELECT] runs
    outside a transaction and its cursor is exhausted by [fetchone]; the
    [UPDATE] opens the transaction that [commit] ends.  Another connection can
    run between the two. *)
Inductive lock_call :=
| Calling (i : string) (duration_seconds : Z)
| HasRead (i : string) (duration_seconds current_time : Z) (read : option Z)
| Returned (b : bool).

Definition lock_step (c : lock_call) (w : world) : lock_call * world :=
  match c with
  | Calling i d => (HasRead i d (clock w) (select_locked_until i (jobs w)), w)
  | HasRead i d current_time read =>
      if lock_is_free current_time read then
        (Returned true,
         set_jobs (update_locked_until i (current_time + d) (jobs w)) w)
      else (Returned false, w)
  | Returned b => (Returned b, w)
  end.

(** Two workers; the schedule says who moves: [true] the first, [false] the
    second. *)
Fixpoint interleave (schedule : list bool) (a b : lock_call) (w : world)
    : lock_call * lock_call * world :=
  match schedule with
  | [] => (a, b, w)
  | true :: rest => let '(a', w') := lock_step a w in interleave rest a' b w'
  | false :: rest => let '(b', w') := lock_step b w in interleave rest a b' w'
  end.

(** * Vocabulary of the properties *)

(** The ids in the live table and in the dead-letter table. *)
Definition row_ids (js : list row) : list string := (λ r, id (row_job r)) <$> js.

Definition dlq_ids (d : list dlq_row) : list string := dlq_id <$> d.

(** The environment lets the next call through. *)
Definition next_call_ok (w : world) : Prop := head (faults w) ≠ Some true.

#[global] Instance next_call_ok_dec w : Decision (next_call_ok w).
Proof. unfold next_call_ok. apply _. Defined.

(** The store as the body of the next call sees it. *)
Definition entered (m : method) (arg : string) (w : world) : world :=
  set_faults (tail (faults w)) (emit (Called m arg) w).

(** The order of [ORDER BY created_at], on jobs. *)
Definition job_created_le (a b : Job) : Prop :=
  String.leb (created_at a) (created_at b).

#[global] Instance job_created_le_dec a b : Decision (job_created_le a b).
Proof. unfold job_created_le. apply _. Defined.

(** The oracle has no failure left. *)
Definition calm (w : world) : Prop := faults w = [].

(** The job object after a failure that is to be retried, and after one that
    is not. *)
Definition failed_job (now delay : Z) (error_text : string) (j : Job) : Job :=
  set_updated_at now
    (set_next_retry_at (Some (Iso (now + delay)))
       (set_error_message (Some error_text) (set_state FAILED j))).

Definition dead_job (error_text : string) (j : Job) : Job :=
  set_error_message (Some error_text) (set_state DEAD j).

(** The command did not exit with status 0. *)
Definition failing (oc : outcome) : Prop :=
  match oc with
  | Exited returncode _ _ => returncode ≠ 0
  | TimeoutExpired | LaunchError _ => True
  end.

(** The diagnostic text [_execute_job] passes on for a failing command. *)
Definition failure_text (oc : outcome) : string :=
  match oc with
  | Exited _ stdout stderr => if decide (stderr = "") then stdout else stderr
  | TimeoutExpired => "Job execution timeout"
  | LaunchError msg => msg
  end.

(** The job object once it is marked as running. *)
Definition processing_job (now : Z) (j : Job) : Job :=
  set_updated_at now (set_attempts (attempts j + 1) (set_state PROCESSING j)).

#[global] Instance exn_eq_dec : EqDecision exn.
Proof. solve_decision. Defined.

#[global] Instance logline_eq_dec : EqDecision logline.
Proof. solve_decision. Defined.

#[global] Instance event_eq_dec : EqDecision event.
Proof. solve_decision. Defined.

(** How many times [release_job_lock(i)] was called. *)
Definition releases (i : string) (tr : list event) : nat :=
  length (filter (λ e, e = Called m_release_job_lock i) tr).

(** States that contain the store. *)
Class HasWorld (S : Type) := world_of : S → world.
#[global] Instance world_has_world : HasWorld world := λ w, w.
#[global] Instance pair_has_world : HasWorld (Job * world) := snd.

(** A computation that never calls [release_job_lock(i)]. *)
Definition quiet {S A} `{HasWorld S} (i : string) (m : M S A) : Prop :=
  ∀ s, releases i (trace (world_of (m s).2)) = releases i (trace (world_of s)).

(** No id is in the live table and in the dead-letter table. *)
Definition exclusive (w : world) : Prop :=
  ∀ i, i ∈ row_ids (jobs w) → i ∈ dlq_ids (dlq w) → False.

(** A computation that keeps a property of the store. *)
Definition keeps {S A} `{HasWorld S} (P : world → Prop) (m : M S A) : Prop :=
  ∀ s, P (world_of s) → P (world_of (m s).2).

(** A property that depends on the two tables only. *)
Class TablesOnly (P : world → Prop) :=
  tables_only : ∀ w w', jobs w' = jobs w → dlq w' = dlq w → P w → P w'.

(** The key of a dead-letter row is the id of its snapshot, as [move_to_dlq]
    writes it. *)
Definition dlq_keyed (w : world) : Prop :=
  Forall (λ d, id (job_data d) = dlq_id d) (dlq w).

(** The calls on the store in a trace, without the log lines. *)
Definition is_call (e : event) : bool :=
  match e with
  | Called _ _ => true
  | Printed _ | Slept _ => false
  end.

Definition calls (tr : list event) : list event := filter is_call tr.

(** The lock of job [i] cannot be taken at the instant of the store. *)
Definition held (w : world) (j : Job) : Prop :=
  lock_is_free (clock w) (select_locked_until (id j) (jobs w)) = false.

(** The job object [_get_next_job] returns for a candidate: a failed job is
    brought back to pending. *)
Definition claimed_job (now : Z) (j : Job) : Job :=
  if decide (state j = FAILED)
  then set_updated_at now (set_next_retry_at None (set_state PENDING j))
  else j.

(** What a computation on the job [i] leaves alone: the configuration, and
    the row of every other id in either table, are as in [w0]. *)
Definition others_as_in (i : string) (w0 w : world) : Prop :=
  config w = config w0
  ∧ ∀ k, k ≠ i → find_row k (jobs w) = find_row k (jobs w0)
                 ∧ find_dlq k (dlq w) = find_dlq k (dlq w0).

(** The same for a method of the worker, which holds the object of job [i]. *)
Definition works_on (i : string) (w0 : world) (s : Job * world) : Prop :=
  id s.1 = i ∧ others_as_in i w0 s.2.

(** A computation that keeps a property of its state, whether it returns or
    raises. *)
Definition preserves {S A} (P : S → Prop) (m : M S A) : Prop :=
  ∀ s, P s → P (m s).2.

(** No row of the live table has [attempts] below zero. *)
Definition attempts_counted (w : world) : Prop :=
  Forall (λ r, 0 ≤ attempts (row_job r)) (jobs w).

(** The longest the turns can take: the time between turns, and one sleep
    in each. *)
Definition duration (poll_interval : Z) (turns : list turn) : Z :=
  foldr (λ t d, elapsed t + poll_interval + d) 0 turns.

(** * Sample stores *)

(** The configuration [_ensure_config] writes. *)
Definition default_config : gmap string Z :=
  <["max_retries" := 3]> (<["backoff_base" := 2]> (<["backoff_max_seconds" := 600]> ∅)).

Definition sample_job (i created : string) (s : JobState) (n : Z) : Job :=
  mkJob i "exit 1" s n 3 created 0 None None.

(** One pending job whose lease runs out at instant 100; the clock shows 100. *)
Definition lease_ends_now : world :=
  mkWorld [mkRow (sample_job "j1" "2024-01-01T00:00:00Z" PENDING 0) 100] []
          default_config 100 [] [].

(** Three failed jobs, in the order of their rowids: the first was created
    after the second, both are due; the third has no [next_retry_at]. *)
Definition three_failed : world :=
  mkWorld
    [ mkRow (mkJob "a" "exit 1" FAILED 1 3 "2024-01-02T00:00:00Z" 0 (Some (Iso 5)) None) 0;
      mkRow (mkJob "b" "exit 1" FAILED 1 3 "2024-01-01T00:00:00Z" 0 (Some (Iso 5)) None) 0;
      mkRow (mkJob "c" "exit 1" FAILED 1 3 "2024-01-03T00:00:00Z" 0 None None) 0 ]
    [] default_config 10 [] [].

(** Two pending jobs stored newest first, then one failed job that is due. *)
Definition mixed_ready : world :=
  mkWorld
    [ mkRow (sample_job "p2" "2024-01-02T00:00:00Z" PENDING 0) 0;
      mkRow (sample_job "p1" "2024-01-01T00:00:00Z" PENDING 0) 0;
      mkRow (mkJob "f1" "exit 1" FAILED 1 3 "2023-12-31T00:00:00Z" 0 (Some (Iso 5)) None) 0 ]
    [] default_config 10 [] [].

(** One job, leased until instant 400, the clock at 100, and an oracle. *)
Definition one_leased (fs : list bool) : world :=
  mkWorld [mkRow (sample_job "j1" "2024-01-01T00:00:00Z" PENDING 0) 400] []
          default_config 100 fs [].

(** A job that is failed and due, not held, and an oracle. *)
Definition one_due (fs : list bool) : world :=
  mkWorld [mkRow (mkJob "j1" "exit 1" FAILED 1 3 "2024-01-01T00:00:00Z" 0
                    (Some (Iso 50)) (Some "boom")) 0] []
          default_config 100 fs [].

(** A pending job that nobody holds, and an oracle. *)
Definition one_pending (fs : list bool) : world :=
  mkWorld [mkRow (sample_job "j1" "2024-01-01T00:00:00Z" PENDING 0) 0] []
          default_config 100 fs [].

(** Three turns of the loop, one second apart, without a signal. *)
Definition three_turns : list turn :=
  [mkTurn 1 false (Exited 0 "" ""); mkTurn 1 false (Exited 0 "" "");
   mkTurn 1 false (Exited 0 "" "")].

(** A job whose own [max_retries] is 1, under the default configuration
    ([max_retries] 3). *)
Definition own_ceiling_1 : world :=
  mkWorld [mkRow (mkJob "j1" "exit 1" PENDING 0 1 "2024-01-01T00:00:00Z" 0 None None) 0]
          [] default_config 100 [] [].

(** Job [j1] is dead: its snapshot is in the dead-letter table and the live
    table is empty. *)
Definition one_dead (fs : list bool) : world :=
  mkWorld []
    [mkDlq "j1" (mkJob "j1" "exit 1" DEAD 3 3 "2024-01-01T00:00:00Z" 90 None (Some "boom"))
       90 "Max retries (3) exceeded. Last error: boom"]
    default_config 100 fs [].

(** Job [j1] was dead and has been enqueued again under the same id: it is in
    both tables; it has failed twice since. *)
Definition dead_and_live (fs : list bool) : world :=
  mkWorld
    [mkRow (sample_job "j1" "2024-01-02T00:00:00Z" PENDING 2) 400]
    [mkDlq "j1" (mkJob "j1" "exit 1" DEAD 3 3 "2024-01-01T00:00:00Z" 90 None (Some "boom"))
       90 "Max retries (3) exceeded. Last error: boom"]
    default_config 100 fs [].

(** * Properties *)

(** ** The tables *)

Section tables.
Implicit Types (i k : string) (js : list row) (d : list dlq_row).

Lemma find_row_None i js : find_row i js = None ↔ i ∉ row_ids js.
Proof.
  induction js as [|r js IH]; simpl.
  - split; [intros _; apply not_elem_of_nil | done].
  - rewrite not_elem_of_cons. case_decide; naive_solver.
Qed.

Lemma find_row_Some i js r : find_row i js = Some r → id (row_job r) = i ∧ r ∈ js.
Proof.
  induction js as [|r' js IH]; simpl; [done|].
  case_decide.
  - intros [= <-]. split; [done | left].
  - intros Hf. destruct (IH Hf). split; [done | by right].
Qed.

Lemma find_row_is_Some i js : is_Some (find_row i js) ↔ i ∈ row_ids js.
Proof.
  rewrite <-not_eq_None_Some, find_row_None.
  split; [apply dec_stable | naive_solver].
Qed.

Lemma find_row_app i js1 js2 :
  find_row i (js1 ++ js2)
  = match find_row i js1 with Some r => Some r | None => find_row i js2 end.
Proof. induction js1 as [|r js1 IH]; simpl; [done|]. by case_decide. Qed.

Lemma find_row_update_row i k f js :
  (∀ r, id (row_job r) = i → id (row_job (f r)) = i) →
  find_row k (update_row i f js)
  = if decide (i = k) then f <$> find_row k js else find_row k js.
Proof.
  intros Hf. induction js as [|r js IH]; simpl.
  - by case_decide.
  - destruct (decide (id (row_job r) = i)) as [Hi|Hi].
    + rewrite (Hf _ Hi). repeat case_decide; simplify_eq; try done.
    + repeat case_decide; simplify_eq; try done.
Qed.

Lemma find_row_remove_row i k js :
  find_row k (remove_row i js) = if decide (i = k) then None else find_row k js.
Proof.
  unfold remove_row. induction js as [|r js IH]; simpl.
  - by case_decide.
  - rewrite filter_cons. destruct (decide (id (row_job r) ≠ i)) as [Hi|Hi]; simpl.
    + rewrite IH. repeat case_decide; simplify_eq; done.
    + apply dec_stable in Hi. rewrite IH.
      repeat case_decide; simplify_eq; done.
Qed.

Lemma row_ids_update_row i f js :
  (∀ r, id (row_job r) = i → id (row_job (f r)) = i) →
  row_ids (update_row i f js) = row_ids js.
Proof.
  intros Hf. unfold row_ids, update_row. rewrite <-list_fmap_compose.
  apply list_fmap_ext. intros _ r _. simpl. case_decide; [|done].
  by rewrite Hf.
Qed.

Lemma elem_of_row_ids_remove_row i k js :
  k ∈ row_ids (remove_row i js) ↔ k ≠ i ∧ k ∈ row_ids js.
Proof.
  rewrite <-!find_row_is_Some, find_row_remove_row.
  case_decide; subst; [|naive_solver].
  split; [by intros [? ?] | naive_solver].
Qed.

Lemma find_dlq_None i d : find_dlq i d = None ↔ i ∉ dlq_ids d.
Proof.
  induction d as [|r d IH]; simpl.
  - split; [intros _; apply not_elem_of_nil | done].
  - rewrite not_elem_of_cons. case_decide; naive_solver.
Qed.

Lemma elem_of_dlq_ids_remove_dlq i k d :
  k ∈ dlq_ids (remove_dlq i d) ↔ k ≠ i ∧ k ∈ dlq_ids d.
Proof.
  unfold dlq_ids, remove_dlq. rewrite !list_elem_of_fmap.
  setoid_rewrite list_elem_of_filter. naive_solver.
Qed.
End tables.

(** ** The oracle *)

Lemma storage_call_ok {A} m arg (body : world → result A * world) w :
  next_call_ok w → storage_call m arg body w = body (entered m arg w).
Proof.
  unfold next_call_ok, storage_call, entered. destruct w as [js d c t fs tr]; simpl.
  destruct fs as [|[] fs]; simpl; intros Hok; [done | by destruct Hok | done].
Qed.

Lemma storage_call_fault {A} m arg (body : world → result A * world) w :
  ¬ next_call_ok w →
  storage_call m arg body w = (Raise OperationalError, entered m arg w).
Proof.
  unfold next_call_ok, storage_call, entered. destruct w as [js d c t fs tr]; simpl.
  destruct fs as [|[] fs]; simpl; intros Hok; [by destruct Hok | done | by destruct Hok].
Qed.

(** ** C1: acquire_job_lock *)

(** C1, as stated, fails: the spec grants the lock when [lock_expiry ≤ now].
    With [locked_until = 100] and the clock at 100 the row exists and its
    expiry is not after now, yet the call returns [False]. *)
Lemma C1_lock_at_expiry_instant_refused :
  ¬ ((∃ l, select_locked_until "j1" (jobs lease_ends_now) = Some l
           ∧ l ≤ clock lease_ends_now)
     → (acquire_job_lock "j1" 60 lease_ends_now).1 = Ok true).
Proof.
  intros H. assert (Hc : (acquire_job_lock "j1" 60 lease_ends_now).1 = Ok true).
  { apply H. exists 100. split; [reflexivity | simpl; lia]. }
  vm_compute in Hc. discriminate.
Qed.

(** C1, amended: when the environment lets the call through,
    [acquire_job_lock i d] returns [True] exactly when the row exists and
    [locked_until < now], strictly (0, the unlocked value, is below any
    positive instant).  It then sets that row's [locked_until] to [now + d] and
    changes no other row, no other column and no other table.  In every other
    case it returns [False] and both tables and the configuration are as they
    were. *)
Theorem C1_acquire_job_lock_strict (i : string) (d : Z) (w : world) :
  next_call_ok w →
  let now := clock w in
  let free := ∃ l, select_locked_until i (jobs w) = Some l ∧ l < now in
  let res := acquire_job_lock i d w in
  ((res.1 = Ok true ↔ free) ∧ (res.1 = Ok false ↔ ¬ free))
  ∧ (free →
       select_locked_until i (jobs res.2) = Some (now + d)
       ∧ row_job <$> find_row i (jobs res.2) = row_job <$> find_row i (jobs w)
       ∧ (∀ k, k ≠ i → find_row k (jobs res.2) = find_row k (jobs w))
       ∧ row_ids (jobs res.2) = row_ids (jobs w)
       ∧ dlq res.2 = dlq w ∧ config res.2 = config w)
  ∧ (¬ free →
       jobs res.2 = jobs w ∧ dlq res.2 = dlq w ∧ config res.2 = config w).
Proof.
  intros Hok now free res. subst res. unfold acquire_job_lock.
  rewrite (storage_call_ok _ _ _ _ Hok). cbn beta zeta.
  change (clock (entered m_acquire_job_lock i w)) with now.
  change (jobs (entered m_acquire_job_lock i w)) with (jobs w).
  assert (Hfree : lock_is_free now (select_locked_until i (jobs w)) = true ↔ free).
  { subst free. unfold lock_is_free.
    destruct (select_locked_until i (jobs w)) as [l|].
    - rewrite bool_decide_eq_true. naive_solver.
    - naive_solver. }
  destruct (lock_is_free now (select_locked_until i (jobs w))) eqn:E; simpl.
  - assert (Hf : free) by by apply Hfree.
    split; [naive_solver|]. split; [|done]. intros _.
    unfold select_locked_until, update_locked_until in *.
    rewrite !find_row_update_row by done.
    rewrite decide_True by done.
    destruct Hf as (l & Hl & _). destruct (find_row i (jobs w)) as [r|]; [|done].
    simpl. repeat split; try done.
    + intros k Hk. rewrite find_row_update_row by done. by rewrite decide_False.
    + by apply row_ids_update_row.
  - assert (Hf : ¬ free) by (rewrite <-Hfree; done).
    split; [naive_solver|]. split; [done|]. done.
Qed.

Lemma C1_acquire_job_lock_strict_witness :
  let w := set_clock 101 lease_ends_now in
  (acquire_job_lock "j1" 60 w).1 = Ok true
  ∧ select_locked_until "j1" (jobs (acquire_job_lock "j1" 60 w).2) = Some 161.
Proof.
  intros w.
  assert (Hok : next_call_ok w) by (vm_compute; discriminate).
  pose proof (C1_acquire_job_lock_strict "j1" 60 w Hok) as [[Ht _] [Hset _]].
  assert (Hfree : ∃ l, select_locked_until "j1" (jobs w) = Some l ∧ l < clock w).
  { exists 100. split; [reflexivity | simpl; lia]. }
  split; [by apply Ht | by apply Hset].
Defined.

(** ** C5: the retry delay *)

(** C5, as stated, fails for configurations the store accepts.  With
    [backoff_base = 0] the delay drops from 1 at the first attempt to 0 at
    the second; with [backoff_max_seconds = 0] and [backoff_base = 2] the
    delay at the first attempt is 0, not 1. *)
Lemma C5_delay_not_monotone_nor_1 :
  ¬ (retry_delay 0 600 1 ≤ retry_delay 0 600 2) ∧ retry_delay 2 0 1 ≠ 1.
Proof. split; vm_compute; [intros H; by apply H | discriminate]. Qed.

(** C5, amended: the delay [min(backoff_base ^ (attempts - 1),
    backoff_max_seconds)], attempts counted from 1, never exceeds
    [backoff_max_seconds]; it is non-decreasing in attempts when
    [backoff_base ≥ 1]; at attempts = 1 it is [min(1, backoff_max_seconds)],
    which is 1 for [backoff_base = 2] as soon as [backoff_max_seconds ≥ 1]. *)
Theorem C5_retry_delay (backoff_base backoff_max : Z) :
  (∀ a, retry_delay backoff_base backoff_max a ≤ backoff_max)
  ∧ (1 ≤ backoff_base → ∀ a1 a2, 1 ≤ a1 → a1 ≤ a2 →
       retry_delay backoff_base backoff_max a1
       ≤ retry_delay backoff_base backoff_max a2)
  ∧ retry_delay backoff_base backoff_max 1 = Z.min 1 backoff_max
  ∧ (1 ≤ backoff_max → retry_delay 2 backoff_max 1 = 1).
Proof.
  unfold retry_delay. repeat split.
  - intros a. apply Z.le_min_r.
  - intros Hb a1 a2 H1 H12. apply Z.min_le_compat_r.
    apply Z.pow_le_mono_r; lia.
  - intros Hm. change (2 ^ (1 - 1)) with 1. lia.
Qed.

Lemma C5_retry_delay_witness :
  retry_delay 2 600 1 ≤ retry_delay 2 600 4 ∧ retry_delay 2 600 1 = 1.
Proof.
  pose proof (C5_retry_delay 2 600) as (_ & Hmono & _ & Hone).
  split; [apply Hmono; lia | apply Hone; lia].
Defined.

(** ** C10: add_job on an id that is in the live table *)

Lemma add_job_ok (j : Job) (w : world) :
  next_call_ok w →
  add_job (j, w)
  = (Ok tt,
     (set_updated_at (clock w) j,
      set_jobs (remove_row (id j) (jobs w)
                ++ [mkRow (set_next_retry_at None (set_updated_at (clock w) j)) 0])
        (entered m_add_job (id j) w))).
Proof.
  intros Hok. unfold add_job, on_store.
  by rewrite (storage_call_ok _ _ _ _ Hok).
Qed.

Lemma add_job_fault (j : Job) (w : world) :
  ¬ next_call_ok w →
  add_job (j, w)
  = (Raise OperationalError,
     (set_updated_at (clock w) j, entered m_add_job (id j) w)).
Proof.
  intros Hok. unfold add_job, on_store.
  by rewrite (storage_call_fault _ _ _ _ Hok).
Qed.

Lemma acquire_job_lock_ok (i : string) (d : Z) (w : world) :
  next_call_ok w →
  acquire_job_lock i d w
  = if lock_is_free (clock w) (select_locked_until i (jobs w)) then
      (Ok true, set_jobs (update_locked_until i (clock w + d) (jobs w))
                  (entered m_acquire_job_lock i w))
    else (Ok false, entered m_acquire_job_lock i w).
Proof.
  intros Hok. unfold acquire_job_lock. by rewrite (storage_call_ok _ _ _ _ Hok).
Qed.

(** C10: [add_job] on an id that is in the live table leaves one row for that
    id, with the listed columns taken from the job, [updated_at] at now,
    [next_retry_at] NULL and [locked_until] 0, whatever they were; the other
    rows are untouched.  So a lease that was still running is gone: a call of
    [acquire_job_lock] that was refused before is granted after. *)
Theorem C10_add_job_resets_retry_and_lock (j : Job) (w : world) (r : row) (d : Z) :
  next_call_ok w →
  find_row (id j) (jobs w) = Some r →
  let res := add_job (j, w) in
  let w' := res.2.2 in
  res.1 = Ok tt
  ∧ (∃ r', find_row (id j) (jobs w') = Some r'
           ∧ next_retry_at (row_job r') = None
           ∧ locked_until r' = 0
           ∧ command (row_job r') = command j
           ∧ state (row_job r') = state j
           ∧ attempts (row_job r') = attempts j
           ∧ max_retries (row_job r') = max_retries j
           ∧ created_at (row_job r') = created_at j
           ∧ updated_at (row_job r') = clock w
           ∧ error_message (row_job r') = error_message j)
  ∧ (∀ k, k ≠ id j → find_row k (jobs w') = find_row k (jobs w))
  ∧ (clock w < locked_until r → 0 < clock w →
       (acquire_job_lock (id j) d (set_faults [] w)).1 = Ok false
       ∧ (acquire_job_lock (id j) d (set_faults [] w')).1 = Ok true).
Proof.
  intros Hok Hr res w'. subst w' res. rewrite (add_job_ok _ _ Hok). simpl.
  split; [done|]. split; [|split].
  - eexists. rewrite find_row_app, find_row_remove_row, decide_True by done.
    simpl. rewrite decide_True by done. done.
  - intros k Hk. rewrite find_row_app, find_row_remove_row, decide_False by done.
    destruct (find_row k (jobs w)); [done|]. simpl. by rewrite decide_False.
  - intros Hheld Hpos. rewrite !acquire_job_lock_ok by done. simpl.
    unfold select_locked_until.
    rewrite Hr, find_row_app, find_row_remove_row, decide_True by done.
    simpl. rewrite decide_True by done. simpl.
    rewrite bool_decide_eq_false_2 by lia.
    by rewrite bool_decide_eq_true_2 by lia.
Qed.

Lemma C10_add_job_resets_retry_and_lock_witness :
  let held := set_clock 50 lease_ends_now in
  let j := sample_job "j1" "2024-01-01T00:00:00Z" PENDING 0 in
  (acquire_job_lock "j1" 300 (set_faults [] held)).1 = Ok false
  ∧ (acquire_job_lock "j1" 300 (set_faults [] (add_job (j, held)).2.2)).1 = Ok true.
Proof.
  intros held j.
  refine (proj2 (proj2 (proj2
    (C10_add_job_resets_retry_and_lock j held
       (mkRow (sample_job "j1" "2024-01-01T00:00:00Z" PENDING 0) 100) 300 _ _))) _ _).
  - vm_compute. discriminate.
  - reflexivity.
  - simpl. lia.
  - simpl. lia.
Defined.

(** ** C6: get_ready_jobs *)

#[global] Instance created_le_total : Total created_le.
Proof.
  intros a b. unfold created_le.
  destruct (String.leb_total (created_at (row_job a)) (created_at (row_job b)))
    as [H|H]; rewrite H; [by left | by right].
Qed.

Lemma get_ready_jobs_ok (w : world) :
  next_call_ok w →
  get_ready_jobs w
  = (Ok ((row_job <$> merge_sort created_le (rows_by_state PENDING (jobs w)))
         ++ (row_job <$> filter (λ r, retry_due (clock w) r)
               (filter (λ r, next_retry_at (row_job r) ≠ None)
                  (rows_by_state FAILED (jobs w))))),
     entered m_get_ready_jobs "" w).
Proof.
  intros Hok. unfold get_ready_jobs. by rewrite (storage_call_ok _ _ _ _ Hok).
Qed.

(** C6, as stated, fails twice on [three_failed]: the failed job whose
    [next_retry_at] is absent is not returned, and the two that are returned
    are not in ascending order of [created_at]. *)
Lemma C6_failed_rows_unsorted_and_null_skipped :
  ∃ out, (get_ready_jobs three_failed).1 = Ok out
         ∧ ¬ Sorted job_created_le out
         ∧ (∃ r, r ∈ jobs three_failed ∧ state (row_job r) = FAILED
                 ∧ next_retry_at (row_job r) = None ∧ row_job r ∉ out).
Proof.
  eexists. split; [vm_compute; reflexivity|]. split.
  - intros HS. apply Sorted_inv in HS as [_ HR]. apply HdRel_inv in HR.
    vm_compute in HR. done.
  - eexists. split; [do 2 right; left|]. repeat split.
    intros Hin. repeat (apply elem_of_cons in Hin as [Hin|Hin]; [discriminate|]).
    by apply elem_of_nil in Hin.
Qed.

(** C6, amended: [get_ready_jobs] returns the Pending jobs, all of them, in
    ascending order of [created_at], followed by the Failed jobs whose
    [next_retry_at] is present (not NULL) and either does not parse or is not
    after now; a Failed job without [next_retry_at] is not returned.  Every
    Pending job precedes every Failed one.  (The failed jobs come as the table
    yields them; nothing is said on their order.)  The store is only read. *)
Theorem C6_get_ready_jobs (w : world) :
  next_call_ok w →
  ∃ pending failed,
    (get_ready_jobs w).1 = Ok (pending ++ failed)
    ∧ Sorted job_created_le pending
    ∧ pending ≡ₚ row_job <$> rows_by_state PENDING (jobs w)
    ∧ failed `sublist_of` (row_job <$> jobs w)
    ∧ (∀ r, r ∈ jobs w →
         (row_job r ∈ failed ↔
            state (row_job r) = FAILED
            ∧ (next_retry_at (row_job r) = Some Malformed
               ∨ ∃ t, next_retry_at (row_job r) = Some (Iso t) ∧ t ≤ clock w)))
    ∧ Forall (λ j, state j = PENDING) pending
    ∧ Forall (λ j, state j = FAILED) failed
    ∧ jobs (get_ready_jobs w).2 = jobs w
    ∧ dlq (get_ready_jobs w).2 = dlq w
    ∧ config (get_ready_jobs w).2 = config w.
Proof.
  intros Hok. rewrite (get_ready_jobs_ok _ Hok). do 2 eexists.
  split; [reflexivity|]. simpl. split_and!; try done.
  - apply Sorted_fmap with (R1 := created_le); [done|]. apply Sorted_merge_sort, _.
  - by rewrite merge_sort_Permutation.
  - apply fmap_sublist. unfold rows_by_state.
    etrans; [apply sublist_filter|]. etrans; apply sublist_filter.
  - intros r Hr. split.
    + intros (r' & Heq & Hin)%list_elem_of_fmap. rewrite Heq.
      apply list_elem_of_filter in Hin as [Hdue Hin].
      apply list_elem_of_filter in Hin as [Hnn Hin].
      apply list_elem_of_filter in Hin as [Hs _]. split; [done|].
      unfold retry_due in Hdue.
      destruct (next_retry_at (row_job r')) as [[t|]|]; [|by left|done].
      right. exists t. split; [done|]. by apply bool_decide_spec in Hdue.
    + intros [Hs Hdue]. apply list_elem_of_fmap. exists r. split; [done|].
      apply list_elem_of_filter. split.
      * unfold retry_due. destruct Hdue as [->|(t & -> & Ht)]; [done|].
        by apply bool_decide_spec.
      * apply list_elem_of_filter. split; [naive_solver|].
        by apply list_elem_of_filter.
  - apply Forall_fmap, Forall_forall. intros r Hr. simpl.
    rewrite merge_sort_Permutation in Hr. by apply list_elem_of_filter in Hr as [? _].
  - apply Forall_fmap, Forall_forall. intros r Hr. simpl.
    apply list_elem_of_filter in Hr as [_ Hr].
    apply list_elem_of_filter in Hr as [_ Hr].
    by apply list_elem_of_filter in Hr as [? _].
Qed.

Lemma C6_get_ready_jobs_witness :
  ∃ pending failed,
    (get_ready_jobs mixed_ready).1 = Ok (pending ++ failed)
    ∧ Sorted job_created_le pending
    ∧ pending ≡ₚ row_job <$> rows_by_state PENDING (jobs mixed_ready)
    ∧ Forall (λ j, state j = FAILED) failed.
Proof.
  assert (Hok : next_call_ok mixed_ready) by (vm_compute; discriminate).
  destruct (C6_get_ready_jobs mixed_ready Hok)
    as (pending & failed & H1 & H2 & H3 & _ & _ & _ & H4 & _).
  exists pending, failed. done.
Defined.

(** ** The failure decision *)

Arguments config_get : simpl never.
Arguments retry_delay : simpl never.
Arguments dlq_reason : simpl never.
Arguments update_row : simpl never.
Arguments remove_row : simpl never.
Arguments find_dlq : simpl never.

Lemma calm_next_call_ok w : calm w → next_call_ok w.
Proof. unfold calm, next_call_ok. by intros ->. Qed.

Lemma handle_job_failure_calm (error_text : string) (j : Job) (w : world) :
  calm w →
  let max_retries := config_get "max_retries" 3 (config w) in
  let backoff_base := config_get "backoff_base" 2 (config w) in
  let delay := retry_delay backoff_base
                 (config_get "backoff_max_seconds" 600 (config w)) (attempts j) in
  let w0 := mkWorld (jobs w) (dlq w) (config w) (clock w) []
              (trace w ++ [Called m_get_config ""]) in
  _handle_job_failure error_text (j, w)
  = if bool_decide (attempts j < max_retries) then
      if bool_decide (backoff_base = 0 ∧ attempts j - 1 < 0) then
        (Raise ZeroDivisionError, (j, w0))
      else if bool_decide (datetime_min ≤ clock w + delay ≤ datetime_max) then
        let j' := failed_job (clock w) delay error_text j in
        (Ok tt,
         (j', mkWorld (update_row (id j) (λ r, mkRow j' (locked_until r)) (jobs w))
                (dlq w) (config w) (clock w) []
                (((trace w ++ [Called m_get_config ""])
                    ++ [Printed (LogRetry (id j) delay)])
                   ++ [Called m_update_job (id j)])))
      else (Raise OverflowError, (j, w0))
    else
      let j' := dead_job error_text j in
      let tr := ((trace w ++ [Called m_get_config ""]) ++ [Printed (LogToDlq (id j))])
                  ++ [Called m_move_to_dlq (id j)] in
      match find_dlq (id j) (dlq w) with
      | Some _ =>
          (Raise IntegrityError,
           (j', mkWorld (jobs w) (dlq w) (config w) (clock w) [] tr))
      | None =>
          (Ok tt,
           (j', mkWorld (remove_row (id j) (jobs w))
                  (dlq w ++ [mkDlq (id j) j' (clock w) (dlq_reason max_retries error_text)])
                  (config w) (clock w) [] tr))
      end.
Proof.
  unfold calm. destruct w as [js d c t fs tr]. simpl. intros ->.
  unfold _handle_job_failure, bind, on_store, get_config, storage_call. simpl.
  case_bool_decide.
  - unfold backoff_delay. case_bool_decide; [done|].
    unfold ret, utcnow, add_seconds. simpl. case_bool_decide; [|done].
    unfold assign, print, update_job, on_store, storage_call,
      _check_and_reschedule_failed_job, ret; simpl. done.
  - unfold assign, print, move_to_dlq, on_store, storage_call; simpl.
    by destruct (find_dlq (id j) d).
Qed.

(** The retry instant of a failure that counts ([1 ≤ attempts]) is a date. *)
Lemma handle_job_failure_retry_calm (error_text : string) (j : Job) (w : world) :
  calm w →
  let delay := retry_delay (config_get "backoff_base" 2 (config w))
                 (config_get "backoff_max_seconds" 600 (config w)) (attempts j) in
  attempts j < config_get "max_retries" 3 (config w) →
  1 ≤ attempts j →
  datetime_min ≤ clock w + delay ≤ datetime_max →
  let j' := failed_job (clock w) delay error_text j in
  _handle_job_failure error_text (j, w)
  = (Ok tt,
     (j', mkWorld (update_row (id j) (λ r, mkRow j' (locked_until r)) (jobs w))
            (dlq w) (config w) (clock w) []
            (((trace w ++ [Called m_get_config ""])
                ++ [Printed (LogRetry (id j) delay)])
               ++ [Called m_update_job (id j)]))).
Proof.
  intros Hcalm delay HM Ha Hdate j'. rewrite (handle_job_failure_calm _ _ _ Hcalm).
  cbn zeta. rewrite bool_decide_eq_true_2 by done.
  rewrite bool_decide_eq_false_2 by lia. by rewrite bool_decide_eq_true_2.
Qed.

(** ** Running a job *)

Lemma try_except_ok {S A} (m : M S A) (h : exn → M S A) (s : S) (a : A) :
  (m s).1 = Ok a → try_except m h s = m s.
Proof. unfold try_except. destruct (m s) as [[?|?] ?]; simpl; [done | discriminate]. Qed.

Lemma execute_guarded_failing (oc : outcome) (j : Job) (w : world) :
  failing oc →
  (_handle_job_failure (failure_text oc) (j, w)).1 = Ok tt →
  execute_guarded oc (j, w) = _handle_job_failure (failure_text oc) (j, w).
Proof.
  intros Hf Hok. destruct oc as [rc out err| |msg]; simpl in *; [|done..].
  rewrite bool_decide_eq_false_2 by done. by eapply try_except_ok.
Qed.

Lemma execute_job_unfold (oc : outcome) (j : Job) (w : world) :
  next_call_ok w →
  let j1 := processing_job (clock w) j in
  let w1 := emit (Printed (LogExecuting (id j)))
              (set_jobs (update_row (id j) (λ r, mkRow j1 (locked_until r)) (jobs w))
                 (entered m_update_job (id j) w)) in
  _execute_job oc (j, w)
  = try_finally (execute_guarded oc) (on_store (release_job_lock (id j))) (j1, w1).
Proof.
  intros Hok. unfold _execute_job, bind, assign, the_job, update_job, on_store. simpl.
  rewrite (storage_call_ok _ _ _ _ Hok). done.
Qed.

Lemma execute_job_fault (oc : outcome) (j : Job) (w : world) :
  ¬ next_call_ok w →
  _execute_job oc (j, w)
  = (Raise OperationalError,
     (processing_job (clock w) j, entered m_update_job (id j) w)).
Proof.
  intros Hok. unfold _execute_job, bind, assign, the_job, update_job, on_store. simpl.
  rewrite (storage_call_fault _ _ _ _ Hok). done.
Qed.

(** ** Calls of release_job_lock in the trace *)

Lemma releases_app i tr1 tr2 : releases i (tr1 ++ tr2) = (releases i tr1 + releases i tr2)%nat.
Proof. unfold releases. by rewrite filter_app, length_app. Qed.

Lemma releases_snoc_other i tr e :
  e ≠ Called m_release_job_lock i → releases i (tr ++ [e]) = releases i tr.
Proof.
  intros He. rewrite releases_app. unfold releases at 2.
  rewrite filter_cons_False by done. simpl. lia.
Qed.

Lemma releases_snoc_release i tr :
  releases i (tr ++ [Called m_release_job_lock i]) = S (releases i tr).
Proof.
  rewrite releases_app. unfold releases at 2.
  rewrite filter_cons_True by done. simpl. lia.
Qed.

Create HintDb quiet.

Section quiet.
Context {S : Type} `{HasWorld S} (i : string).

Lemma quiet_ret {A} (a : A) : quiet i (ret (S := S) a).
Proof. by intros s. Qed.

Lemma quiet_raise {A} (e : exn) : quiet i (raise (S := S) (A := A) e).
Proof. by intros s. Qed.

Lemma quiet_backoff_delay b m a : quiet i (backoff_delay (S := S) b m a).
Proof. unfold backoff_delay. case_bool_decide; by intros s. Qed.

Lemma quiet_add_seconds now delay : quiet i (add_seconds (S := S) now delay).
Proof. unfold add_seconds. case_bool_decide; by intros s. Qed.

Lemma quiet_bind {A B} (m : M S A) (k : A → M S B) :
  quiet i m → (∀ a, quiet i (k a)) → quiet i (bind m k).
Proof.
  intros Hm Hk s. unfold bind. specialize (Hm s).
  destruct (m s) as [[a|e] s']; simpl in *; [|done].
  by rewrite Hk.
Qed.

Lemma quiet_try_except {A} (m : M S A) (h : exn → M S A) :
  quiet i m → (∀ e, quiet i (h e)) → quiet i (try_except m h).
Proof.
  intros Hm Hh s. unfold try_except. specialize (Hm s).
  destruct (m s) as [[a|e] s']; simpl in *; [done|].
  by rewrite Hh.
Qed.

Lemma quiet_if {A} (b : bool) (m1 m2 : M S A) :
  quiet i m1 → quiet i m2 → quiet i (if b then m1 else m2).
Proof. by destruct b. Qed.
End quiet.

Lemma quiet_storage_call {A} i m arg (body : world → result A * world) :
  m ≠ m_release_job_lock →
  (∀ w, trace (body w).2 = trace w) →
  quiet i (storage_call m arg body).
Proof.
  intros Hm Hbody w. unfold storage_call, world_of, world_has_world.
  destruct w as [js d c t fs tr]; simpl.
  destruct fs as [|[] fs]; simpl; rewrite ?Hbody; simpl;
    apply releases_snoc_other; congruence.
Qed.

Lemma quiet_on_store {A} i (m : M world A) : quiet i m → quiet i (on_store m).
Proof.
  intros Hm [j w]. unfold on_store. specialize (Hm w).
  by destruct (m w) as [r w'].
Qed.

Lemma quiet_assign i f : quiet i (assign f).
Proof. by intros [j w]. Qed.

Lemma quiet_the_job i : quiet i the_job.
Proof. by intros [j w]. Qed.

Lemma quiet_utcnow i : quiet i utcnow.
Proof. by intros [j w]. Qed.

Lemma quiet_print i l : quiet i (print l).
Proof.
  intros [j w]. unfold print, world_of, pair_has_world. simpl.
  by apply releases_snoc_other.
Qed.

Lemma quiet_get_config i : quiet i get_config.
Proof. by apply quiet_storage_call. Qed.

Lemma quiet_update_job i : quiet i update_job.
Proof.
  intros [j w]. unfold update_job.
  refine (quiet_on_store i _ _ (set_updated_at (clock w) j, w)).
  by apply quiet_storage_call.
Qed.

Lemma quiet_move_to_dlq i reason : quiet i (move_to_dlq reason).
Proof.
  intros [j w]. unfold move_to_dlq.
  refine (quiet_on_store i _ _ (j, w)). apply quiet_storage_call; [done|].
  intros w'. by destruct (find_dlq (id j) (dlq w')).
Qed.

#[global] Hint Resolve quiet_ret quiet_raise quiet_backoff_delay quiet_add_seconds
  quiet_bind quiet_try_except quiet_if quiet_on_store
  quiet_assign quiet_the_job quiet_utcnow quiet_print quiet_get_config
  quiet_update_job quiet_move_to_dlq : quiet.

Lemma quiet_handle_job_failure i error_text : quiet i (_handle_job_failure error_text).
Proof.
  unfold _handle_job_failure, _check_and_reschedule_failed_job.
  repeat (first [apply quiet_bind | apply quiet_if | intros ?]; auto with quiet).
Qed.

Lemma quiet_execute_guarded i oc : quiet i (execute_guarded oc).
Proof.
  destruct oc; simpl; auto using quiet_handle_job_failure.
  apply quiet_try_except; [|auto using quiet_handle_job_failure].
  apply quiet_if; [|apply quiet_handle_job_failure].
  repeat (first [apply quiet_bind | intros ?]; auto with quiet).
Qed.

Lemma release_job_lock_trace i w :
  trace (release_job_lock i w).2 = trace w ++ [Called m_release_job_lock i].
Proof.
  unfold release_job_lock, storage_call. destruct w as [js d c t fs tr]; simpl.
  by destruct fs as [|[] fs].
Qed.

(** ** C7: release_job_lock after a run *)

(** C7: the claim (for every claimed job and every outcome of its run,
    an unexpected internal fault included, [release_job_lock(id)] is executed
    exactly once) fails on the code.  The first statements of [_execute_job]
    are outside its [try]: when the [update_job] that marks the job as
    running raises, the [finally] is never reached, [release_job_lock] is
    not called and the lease stays.  Likewise in [_get_next_job]: when the
    [update_job] that brings a failed job back to pending raises, the lock
    just taken is kept and the job is not run. *)
Theorem C7_release_skipped_when_marking_fails :
  (let res := _execute_job (Exited 0 "" "")
                (sample_job "j1" "2024-01-01T00:00:00Z" PENDING 0, one_leased [true]) in
   res.1 = Raise OperationalError
   ∧ releases "j1" (trace res.2.2) = 0%nat
   ∧ select_locked_until "j1" (jobs res.2.2) = Some 400)
  ∧ (let res := poll_cycle 1 (Exited 0 "" "") (one_due [false; false; false; true]) in
     res.1 = Raise OperationalError
     ∧ releases "j1" (trace res.2) = 0%nat
     ∧ select_locked_until "j1" (jobs res.2) = Some 400).
Proof. vm_compute. split_and!; done. Qed.

(** X23: what the [finally] does give.  Once the [update_job] that marks the
    job as running has gone through, [release_job_lock(id)] is called exactly once,
    as the last call on the store before [_execute_job] is left, for every
    outcome of the command (exit 0, exit ≠ 0, timeout, failure to launch) and
    for every failure of the store calls made in between. *)
Lemma release_exactly_once_after_marking (oc : outcome) (j : Job) (w : world) :
  next_call_ok w →
  let res := _execute_job oc (j, w) in
  (∃ tr, trace res.2.2 = tr ++ [Called m_release_job_lock (id j)]
         ∧ releases (id j) tr = releases (id j) (trace w))
  ∧ releases (id j) (trace res.2.2) = S (releases (id j) (trace w)).
Proof.
  intros Hok res.
  assert (∃ tr, trace res.2.2 = tr ++ [Called m_release_job_lock (id j)]
                ∧ releases (id j) tr = releases (id j) (trace w)) as Hex.
  { subst res. rewrite (execute_job_unfold _ _ _ Hok). unfold try_finally.
    set (j1 := processing_job (clock w) j).
    set (w1 := emit _ _).
    pose proof (quiet_execute_guarded (id j) oc (j1, w1)) as Hq.
    destruct (execute_guarded oc (j1, w1)) as [r [j2 w2]].
    unfold world_of, pair_has_world in Hq. simpl in Hq.
    exists (trace w2). split.
    - pose proof (release_job_lock_trace (id j) w2) as Hr.
      unfold on_store. destruct (release_job_lock (id j) w2) as [[[]|e] w3]; done.
    - rewrite Hq, !releases_snoc_other by done. done. }
  split; [done|]. destruct Hex as (tr & -> & <-). apply releases_snoc_release.
Qed.

Example release_exactly_once_after_timeout :
  releases "j1"
    (trace (_execute_job TimeoutExpired
              (sample_job "j1" "2024-01-01T00:00:00Z" PENDING 0,
               one_leased [false; true; true])).2.2)
  = 1%nat.
Proof.
  refine (proj2 (release_exactly_once_after_marking TimeoutExpired
                   (sample_job "j1" "2024-01-01T00:00:00Z" PENDING 0)
                   (one_leased [false; true; true]) _)).
  vm_compute. discriminate.
Defined.

(** ** C9: an exception in the loop of [run] *)

Lemma run_loop_app (p : Z) (turns1 turns2 : list turn) (w : world) :
  run_loop p (turns1 ++ turns2) w
  = match run_loop p turns1 w with
    | (Ok false, w') => run_loop p turns2 w'
    | other => other
    end.
Proof.
  revert w. induction turns1 as [|t turns1 IH]; intros w; simpl; [done|].
  destruct (signalled t); [done|]. unfold bind.
  destruct (poll_cycle p (run_outcome t) _) as [[[]|e] w']; [|done].
  apply IH.
Qed.

Lemma poll_cycle_fault (p : Z) (oc : outcome) (w : world) :
  ¬ next_call_ok w →
  poll_cycle p oc w = (Raise OperationalError, entered m_clear_expired_locks "" w).
Proof.
  intros Hf. unfold poll_cycle, bind, clear_expired_locks.
  by rewrite (storage_call_fault _ _ _ _ Hf).
Qed.

(** C9, as stated, fails.  On [one_pending [true]], a store whose first call
    fails, a storage error in the first poll cycle ends [run].
    The worker does not go on to the next poll (it is not looping any more,
    [clear_expired_locks] was called once for three turns) and the job that
    was ready has not been run. *)
Lemma C9_storage_error_stops_worker :
  let res := run 1 three_turns (one_pending [true]) in
  res.1 = StoppedOnError OperationalError
  ∧ res.1 ≠ Looping
  ∧ trace res.2
    = [Printed LogStarted; Called m_clear_expired_locks "";
       Printed (LogError OperationalError); Printed LogStopped]
  ∧ (attempts ∘ row_job) <$> find_row "j1" (jobs res.2) = Some 0.
Proof. vm_compute. split_and!; done. Qed.

(** C9, amended: the [try] of [run] encloses the whole [while] loop.  An
    exception that leaves a poll cycle is caught once, outside the loop: the
    worker prints the error, prints that it stopped, and [run] returns.  No
    later turn is run, whatever turns were to come.  A storage error in
    [clear_expired_locks], the first call of a cycle, is such an exception:
    it ends [run] before the cycle has looked for a job. *)
Theorem C9_exception_ends_run (p : Z) (before : list turn) (t : turn)
    (rest : list turn) (w w1 : world) :
  run_loop p before (emit (Printed LogStarted) w) = (Ok false, w1) →
  signalled t = false →
  let w2 := set_clock (clock w1 + elapsed t) w1 in
  (∀ e w3,
     poll_cycle p (run_outcome t) w2 = (Raise e, w3) →
     run p (before ++ t :: rest) w
     = (StoppedOnError e, emit (Printed LogStopped) (emit (Printed (LogError e)) w3)))
  ∧ (¬ next_call_ok w2 →
     run p (before ++ t :: rest) w
     = (StoppedOnError OperationalError,
        emit (Printed LogStopped)
          (emit (Printed (LogError OperationalError))
             (entered m_clear_expired_locks "" w2)))).
Proof.
  intros Hbefore Hsig w2.
  assert (Hgen : ∀ e w3,
            poll_cycle p (run_outcome t) w2 = (Raise e, w3) →
            run p (before ++ t :: rest) w
            = (StoppedOnError e,
               emit (Printed LogStopped) (emit (Printed (LogError e)) w3))).
  { intros e w3 Hcycle. unfold run.
    rewrite run_loop_app, Hbefore. simpl. rewrite Hsig. unfold bind.
    fold w2. by rewrite Hcycle. }
  split; [done|]. intros Hf. apply Hgen. by apply poll_cycle_fault.
Qed.

Lemma C9_exception_ends_run_witness :
  (run 1 three_turns (one_pending [true])).1 = StoppedOnError OperationalError.
Proof.
  pose (w := one_pending [true]).
  pose (w1 := emit (Printed LogStarted) w).
  assert (Hf : ¬ next_call_ok (set_clock (clock w1 + 1) w1))
    by (vm_compute; intros H; by apply H).
  exact (f_equal fst
    (proj2 (C9_exception_ends_run 1 [] (mkTurn 1 false (Exited 0 "" ""))
              [mkTurn 1 false (Exited 0 "" ""); mkTurn 1 false (Exited 0 "" "")]
              w w1 eq_refl eq_refl) Hf)).
Defined.

(** ** C3: the retry ceiling *)

Lemma execute_job_failing_calm (oc : outcome) (j : Job) (w : world) :
  calm w → failing oc → find_dlq (id j) (dlq w) = None →
  let j1 := processing_job (clock w) j in
  let M := config_get "max_retries" 3 (config w) in
  let delay := retry_delay (config_get "backoff_base" 2 (config w))
                 (config_get "backoff_max_seconds" 600 (config w)) (attempts j + 1) in
  0 ≤ attempts j →
  (attempts j + 1 < M → datetime_min ≤ clock w + delay ≤ datetime_max) →
  let js1 := update_row (id j) (λ r, mkRow j1 (locked_until r)) (jobs w) in
  let jF := failed_job (clock w) delay (failure_text oc) j1 in
  let jD := dead_job (failure_text oc) j1 in
  let res := _execute_job oc (j, w) in
  res.1 = Ok tt ∧ calm res.2.2 ∧ clock res.2.2 = clock w ∧ config res.2.2 = config w
  ∧ if bool_decide (attempts j + 1 < M) then
      res.2.1 = jF ∧ dlq res.2.2 = dlq w
      ∧ jobs res.2.2
        = update_locked_until (id j) 0
            (update_row (id j) (λ r, mkRow jF (locked_until r)) js1)
    else
      res.2.1 = jD
      ∧ dlq res.2.2 = dlq w ++ [mkDlq (id j) jD (clock w) (dlq_reason M (failure_text oc))]
      ∧ jobs res.2.2 = update_locked_until (id j) 0 (remove_row (id j) js1).
Proof.
  intros Hcalm Hfail Hd j1 M delay Ha Hdate js1 jF jD res. subst res.
  rewrite (execute_job_unfold _ _ _ (calm_next_call_ok _ Hcalm)). fold j1. fold js1.
  set (w1 := emit _ _).
  assert (Hcalm1 : calm w1). { unfold calm in *. subst w1. simpl. by rewrite Hcalm. }
  assert (Hh : _handle_job_failure (failure_text oc) (j1, w1)
               = if bool_decide (attempts j + 1 < M) then
                   (Ok tt,
                    (jF, mkWorld (update_row (id j) (λ r, mkRow jF (locked_until r)) js1)
                           (dlq w) (config w) (clock w) []
                           (((trace w1 ++ [Called m_get_config ""])
                               ++ [Printed (LogRetry (id j) delay)])
                              ++ [Called m_update_job (id j)])))
                 else
                   (Ok tt,
                    (jD, mkWorld (remove_row (id j) js1)
                           (dlq w ++ [mkDlq (id j) jD (clock w)
                                        (dlq_reason M (failure_text oc))])
                           (config w) (clock w) []
                           (((trace w1 ++ [Called m_get_config ""])
                               ++ [Printed (LogToDlq (id j))])
                              ++ [Called m_move_to_dlq (id j)])))).
  { case_bool_decide as HM.
    - rewrite (handle_job_failure_retry_calm _ _ _ Hcalm1); [done|done|simpl; lia|].
      by apply Hdate.
    - rewrite (handle_job_failure_calm _ _ _ Hcalm1). cbn zeta.
      change (attempts j1) with (attempts j + 1). change (config w1) with (config w).
      fold M. rewrite bool_decide_eq_false_2 by done.
      change (id j1) with (id j). change (dlq w1) with (dlq w). by rewrite Hd. }
  unfold try_finally. rewrite (execute_guarded_failing _ _ _ Hfail).
  - rewrite Hh. case_bool_decide; unfold on_store, release_job_lock, storage_call; simpl; done.
  - rewrite Hh. by case_bool_decide.
Qed.

Lemma find_dlq_app (i : string) (d1 d2 : list dlq_row) :
  find_dlq i (d1 ++ d2)
  = match find_dlq i d1 with Some r => Some r | None => find_dlq i d2 end.
Proof.
  unfold find_dlq. induction d1 as [|r d1 IH]; simpl; [done|]. by case_decide.
Qed.

(** C3: the claim fails on the code.  Job [j1] was enqueued with
    [--max-retries 1], under the default configuration.  The worker runs it
    and it fails: [attempts] reaches 1, the job's own ceiling, and the job is
    not made Dead; it is Failed, in the live table, to be retried.  One
    second later the worker runs it again: the job is still in the live
    table, Failed, with [attempts = 2] above its own [max_retries = 1], and
    the dead-letter table is empty. *)
Theorem C3_own_ceiling_ignored :
  let fails := mkTurn 1 false (Exited 1 "" "boom") in
  let w1 := (run 1 [fails] own_ceiling_1).2 in
  let w2 := (run 1 [fails; fails] own_ceiling_1).2 in
  (∃ r, find_row "j1" (jobs w1) = Some r
        ∧ max_retries (row_job r) = 1
        ∧ attempts (row_job r) = 1
        ∧ state (row_job r) = FAILED
        ∧ dlq w1 = [])
  ∧ (∃ r, find_row "j1" (jobs w2) = Some r
          ∧ max_retries (row_job r) = 1
          ∧ attempts (row_job r) = 2
          ∧ ¬ (attempts (row_job r) ≤ max_retries (row_job r))
          ∧ state (row_job r) = FAILED
          ∧ dlq w2 = []).
Proof. vm_compute. split; eexists; split_and!; try done. Qed.

(** ** C8: the configuration is read at each failure *)

Lemma set_config_calm (key : string) (value : Z) (w : world) :
  calm w →
  set_config key value w
  = (Ok tt,
     mkWorld (jobs w) (dlq w) (<[key := value]> (config w)) (clock w) []
       ((trace w ++ [Called m_get_config ""]) ++ [Called m_set_config key])).
Proof.
  unfold calm. destruct w as [js d c t fs tr]. simpl. intros ->.
  unfold set_config, bind, get_config, storage_call. by simpl.
Qed.

Lemma config_get_insert (key : string) (value dflt : Z) (c : gmap string Z) :
  config_get key dflt (<[key := value]> c) = value.
Proof. unfold config_get. by rewrite lookup_insert_eq. Qed.

(** C8: [set_config] writes the new value to the configuration file, and the
    next [_handle_job_failure], of whichever worker, starts by calling
    [get_config] and decides with what it has just read.  With [c'] the
    configuration after [set_config key value], for a job whose [attempts]
    counts the execution that failed: the job is to be retried exactly when
    [attempts < c'.get("max_retries", 3)]; its delay is computed from
    [c'.get("backoff_base", 2)] and [c'.get("backoff_max_seconds", 600)]; when
    now plus that delay is not a date the computation raises [OverflowError]
    and the job object is left as it was; and [c'.get(key, _)] is [value].
    Nothing but the store carries the configuration from one call to the
    next. *)
Theorem C8_failure_decision_reads_fresh_config
    (key : string) (value : Z) (error_text : string) (j : Job) (w : world) :
  calm w →
  1 ≤ attempts j →
  let set := set_config key value w in
  let c' := <[key := value]> (config w) in
  let res := _handle_job_failure error_text (j, set.2) in
  let delay := retry_delay (config_get "backoff_base" 2 c')
                 (config_get "backoff_max_seconds" 600 c') (attempts j) in
  set.1 = Ok tt
  ∧ config set.2 = c'
  ∧ (∀ dflt, config_get key dflt (config set.2) = value)
  ∧ (∃ tr, trace res.2.2 = trace set.2 ++ Called m_get_config "" :: tr)
  ∧ if bool_decide (attempts j < config_get "max_retries" 3 c') then
      if bool_decide (datetime_min ≤ clock w + delay ≤ datetime_max) then
        res.1 = Ok tt ∧ res.2.1 = failed_job (clock w) delay error_text j
      else res.1 = Raise OverflowError ∧ res.2.1 = j
    else res.2.1 = dead_job error_text j.
Proof.
  intros Hcalm Ha set c' res delay. subst set res.
  rewrite (set_config_calm _ _ _ Hcalm).
  cbn [fst snd]. split_and!; try done.
  - intros dflt. apply config_get_insert.
  - rewrite handle_job_failure_calm by done. cbn [config clock dlq jobs trace]. fold c'.
    repeat case_bool_decide; [| | |destruct (find_dlq _ _)]; simpl;
      eexists; rewrite <-?app_assoc; simpl; reflexivity.
  - rewrite handle_job_failure_calm by done. cbn [config clock dlq jobs trace]. fold c' delay.
    case_bool_decide; [|by destruct (find_dlq _ _)].
    rewrite (bool_decide_eq_false_2 (_ = 0 ∧ _)) by lia.
    by case_bool_decide.
Qed.

(** Scenario D: the default ceiling is 3, a job fails for the third time,
    and [max_retries] has just been set to 5: the job is to be retried. *)
Lemma C8_failure_decision_reads_fresh_config_witness :
  let j := sample_job "j1" "2024-01-01T00:00:00Z" PROCESSING 3 in
  state (_handle_job_failure "boom" (j, one_pending [])).2.1 = DEAD
  ∧ state (_handle_job_failure "boom"
             (j, (set_config "max_retries" 5 (one_pending [])).2)).2.1 = FAILED.
Proof.
  intros j. split; [reflexivity|].
  pose proof (C8_failure_decision_reads_fresh_config "max_retries" 5 "boom" j
                (one_pending []) eq_refl ltac:(simpl; lia)) as (_ & _ & _ & _ & H).
  cbn zeta in H. rewrite bool_decide_eq_true_2 in H by (vm_compute; done).
  rewrite bool_decide_eq_true_2 in H by (vm_compute; split; discriminate).
  destruct H as [_ H]. rewrite H. reflexivity.
Defined.

(** ** C4: an id in the live table or in the dead-letter table, not both *)

Lemma exclusive_shrink (w w' : world) :
  (∀ k, k ∈ row_ids (jobs w') → k ∈ row_ids (jobs w)) →
  (∀ k, k ∈ dlq_ids (dlq w') → k ∈ dlq_ids (dlq w)) →
  exclusive w → exclusive w'.
Proof. intros Hj Hd He k Hk1 Hk2. eapply He; eauto. Qed.

#[global] Instance exclusive_tables_only : TablesOnly exclusive.
Proof. intros w w' Hj Hd. apply exclusive_shrink; by rewrite ?Hj, ?Hd. Qed.

Create HintDb keeps.

Section keeps.
Context {S : Type} `{HasWorld S} (P : world → Prop).

Lemma keeps_ret {A} (a : A) : keeps P (ret (S := S) a).
Proof. by intros s. Qed.

Lemma keeps_raise {A} (e : exn) : keeps P (raise (S := S) (A := A) e).
Proof. by intros s. Qed.

Lemma keeps_backoff_delay b m a : keeps P (backoff_delay (S := S) b m a).
Proof. unfold backoff_delay. case_bool_decide; by intros s. Qed.

Lemma keeps_add_seconds now delay : keeps P (add_seconds (S := S) now delay).
Proof. unfold add_seconds. case_bool_decide; by intros s. Qed.

Lemma keeps_bind {A B} (m : M S A) (k : A → M S B) :
  keeps P m → (∀ a, keeps P (k a)) → keeps P (bind m k).
Proof.
  intros Hm Hk s Hs. unfold bind. specialize (Hm s Hs).
  destruct (m s) as [[a|e] s']; simpl in *; [|done].
  by apply Hk.
Qed.

Lemma keeps_try_except {A} (m : M S A) (h : exn → M S A) :
  keeps P m → (∀ e, keeps P (h e)) → keeps P (try_except m h).
Proof.
  intros Hm Hh s Hs. unfold try_except. specialize (Hm s Hs).
  destruct (m s) as [[a|e] s']; simpl in *; [done|].
  by apply Hh.
Qed.

Lemma keeps_try_finally {A} (m : M S A) (f : M S unit) :
  keeps P m → keeps P f → keeps P (try_finally m f).
Proof.
  intros Hm Hf s Hs. unfold try_finally. specialize (Hm s Hs).
  destruct (m s) as [r s']; simpl in *. specialize (Hf s' Hm).
  by destruct (f s') as [[[]|e] s''].
Qed.

Lemma keeps_if {A} (b : bool) (m1 m2 : M S A) :
  keeps P m1 → keeps P m2 → keeps P (if b then m1 else m2).
Proof. by destruct b. Qed.
End keeps.

Section keeps_store.
Context (P : world → Prop) `{!TablesOnly P}.

Lemma keeps_storage_call {A} m arg (body : world → result A * world) :
  (∀ w, P w → P (body w).2) → keeps P (storage_call m arg body).
Proof.
  intros Hbody w Hw. unfold storage_call, world_of, world_has_world in *.
  destruct w as [js d c t fs tr]; simpl.
  destruct fs as [|[] fs]; simpl; try apply Hbody; by eapply tables_only, Hw.
Qed.

Lemma keeps_on_store {A} (m : M world A) : keeps P m → keeps P (on_store m).
Proof.
  intros Hm [j w] Hw. unfold on_store. specialize (Hm w Hw).
  by destruct (m w) as [r w'].
Qed.

Lemma keeps_assign f : keeps P (assign f).
Proof. by intros [j w]. Qed.

Lemma keeps_the_job : keeps P the_job.
Proof. by intros [j w]. Qed.

Lemma keeps_utcnow : keeps P utcnow.
Proof. by intros [j w]. Qed.

Lemma keeps_print l : keeps P (print l).
Proof. intros [j w] Hw. by eapply tables_only, Hw. Qed.

Lemma keeps_sleep p : keeps P (sleep p).
Proof.
  intros w Hw. unfold sleep. case_bool_decide; [done|]. by eapply tables_only, Hw.
Qed.

Lemma keeps_with_job job (m : M (Job * world) unit) :
  keeps P m → keeps P (with_job job m).
Proof.
  intros Hm w Hw. unfold with_job. specialize (Hm (job, w) Hw).
  by destruct (m (job, w)) as [[[]|e] [j' w']].
Qed.

Lemma keeps_read_only {A} m arg (f : world → A) :
  keeps P (storage_call m arg (λ w, (Ok (f w), w))).
Proof. by apply keeps_storage_call. Qed.
End keeps_store.

#[global] Hint Resolve keeps_ret keeps_raise keeps_backoff_delay keeps_add_seconds
  keeps_bind keeps_try_except keeps_try_finally
  keeps_if keeps_on_store keeps_assign keeps_the_job keeps_utcnow keeps_print
  keeps_sleep keeps_with_job : keeps.

Section exclusive.

Lemma exclusive_same_ids (w : world) (js : list row) :
  row_ids js = row_ids (jobs w) → exclusive w → exclusive (set_jobs js w).
Proof. intros Hj. apply exclusive_shrink; simpl; by rewrite ?Hj. Qed.

Lemma keeps_update_job : keeps exclusive update_job.
Proof.
  intros [j w]. unfold update_job.
  refine (keeps_on_store _ _ _ (set_updated_at (clock w) j, w)).
  apply keeps_storage_call; [apply _..|]. intros w'. simpl.
  apply exclusive_same_ids. by apply row_ids_update_row.
Qed.

Lemma keeps_acquire_job_lock i d : keeps exclusive (acquire_job_lock i d).
Proof.
  apply keeps_storage_call; [apply _..|]. intros w Hw. cbn beta zeta.
  destruct (lock_is_free (clock w) (select_locked_until i (jobs w))); simpl; [|done].
  apply exclusive_same_ids; [|done]. by apply row_ids_update_row.
Qed.

Lemma keeps_release_job_lock i : keeps exclusive (release_job_lock i).
Proof.
  apply keeps_storage_call; [apply _..|]. intros w. simpl.
  apply exclusive_same_ids. by apply row_ids_update_row.
Qed.

Lemma keeps_clear_expired_locks : keeps exclusive clear_expired_locks.
Proof.
  apply keeps_storage_call; [apply _..|]. intros w. simpl.
  apply exclusive_same_ids. unfold row_ids. rewrite <-list_fmap_compose.
  apply list_fmap_ext. intros _ r _. simpl. by case_bool_decide.
Qed.

Lemma keeps_delete_job i : keeps exclusive (delete_job i).
Proof.
  apply keeps_storage_call; [apply _..|]. intros w. simpl.
  apply exclusive_shrink; simpl; [|done].
  intros k Hk. by apply elem_of_row_ids_remove_row in Hk as [_ ?].
Qed.

Lemma keeps_remove_from_dlq i : keeps exclusive (remove_from_dlq i).
Proof.
  apply keeps_storage_call; [apply _..|]. intros w. simpl.
  apply exclusive_shrink; simpl; [done|].
  intros k Hk. by apply elem_of_dlq_ids_remove_dlq in Hk as [_ ?].
Qed.

Lemma keeps_move_to_dlq reason : keeps exclusive (move_to_dlq reason).
Proof.
  intros [j w]. unfold move_to_dlq.
  refine (keeps_on_store _ _ _ (j, w)).
  apply keeps_storage_call; [apply _..|]. intros w' Hw'.
  destruct (find_dlq (id j) (dlq w')); simpl; [done|].
  intros k Hk Hd. simpl in *.
  apply elem_of_row_ids_remove_row in Hk as [Hne Hk].
  unfold dlq_ids in Hd. rewrite fmap_app, elem_of_app in Hd.
  destruct Hd as [Hd|Hd]; [by eapply Hw'|].
  apply list_elem_of_singleton in Hd. done.
Qed.

Lemma keeps_get_ready_jobs : keeps exclusive get_ready_jobs.
Proof. unfold get_ready_jobs. apply keeps_storage_call; [apply _..|]. done. Qed.

Lemma keeps_get_config : keeps exclusive get_config.
Proof. apply keeps_read_only, _. Qed.

Lemma keeps_get_job i : keeps exclusive (get_job i).
Proof. apply keeps_read_only, _. Qed.

Lemma keeps_get_dlq_job i : keeps exclusive (get_dlq_job i).
Proof. apply keeps_read_only, _. Qed.

Lemma keeps_set_config key value : keeps exclusive (set_config key value).
Proof.
  unfold set_config. apply keeps_bind; [apply keeps_get_config|]. intros c.
  apply keeps_storage_call; [apply _..|]. intros w. by apply tables_only.
Qed.
End exclusive.

#[global] Hint Resolve keeps_update_job keeps_acquire_job_lock keeps_release_job_lock
  keeps_clear_expired_locks keeps_delete_job keeps_remove_from_dlq keeps_move_to_dlq
  keeps_get_ready_jobs keeps_get_config keeps_get_job keeps_get_dlq_job
  keeps_set_config exclusive_tables_only : keeps.

Ltac keeps_steps :=
  repeat match goal with
         | |- keeps _ (bind _ _) => apply keeps_bind
         | |- keeps _ (if _ then _ else _) => apply keeps_if
         | |- keeps _ (try_except _ _) => apply keeps_try_except
         | |- keeps _ (try_finally _ _) => apply keeps_try_finally
         | |- ∀ _, keeps _ _ => intros ?; cbn beta
         | |- keeps _ _ => solve [auto with keeps]
         end.

Lemma keeps_handle_job_failure error_text :
  keeps exclusive (_handle_job_failure error_text).
Proof. unfold _handle_job_failure, _check_and_reschedule_failed_job. keeps_steps. Qed.

Lemma keeps_execute_guarded oc : keeps exclusive (execute_guarded oc).
Proof.
  destruct oc; simpl; auto using keeps_handle_job_failure.
  apply keeps_try_except; [|auto using keeps_handle_job_failure].
  apply keeps_if; [|apply keeps_handle_job_failure]. keeps_steps.
Qed.

Lemma keeps_execute_job oc : keeps exclusive (_execute_job oc).
Proof.
  unfold _execute_job. keeps_steps. apply keeps_execute_guarded.
Qed.

Lemma keeps_first_lockable ready_jobs : keeps exclusive (first_lockable ready_jobs).
Proof.
  induction ready_jobs as [|job rest IH]; simpl; [auto with keeps|].
  apply keeps_bind; [auto with keeps|]. intros [|]; [|done].
  case_decide; [|auto with keeps].
  apply keeps_bind; [|auto with keeps].
  apply keeps_with_job; [apply _..|]. keeps_steps.
Qed.

Lemma keeps_poll_cycle p oc : keeps exclusive (poll_cycle p oc).
Proof.
  unfold poll_cycle, _get_next_job.
  apply keeps_bind; [auto with keeps|]. intros _.
  apply keeps_bind.
  { apply keeps_bind; [auto with keeps|]. intros l. apply keeps_first_lockable. }
  intros [job|]; [|auto with keeps].
  apply keeps_bind; [|auto with keeps].
  apply keeps_with_job; [apply _..|]. apply keeps_execute_job.
Qed.

Lemma keeps_run_loop p turns : keeps exclusive (run_loop p turns).
Proof.
  induction turns as [|t turns IH]; simpl; [auto with keeps|].
  intros w Hw. unfold world_of, world_has_world in *.
  assert (Hw' : exclusive (set_clock (clock w + elapsed t) w)) by by eapply tables_only, Hw.
  destruct (signalled t); [done|].
  by apply (keeps_bind exclusive _ _ (keeps_poll_cycle p _) (λ _, IH)).
Qed.

Lemma run_exclusive (p : Z) (turns : list turn) (w : world) :
  exclusive w → exclusive (run p turns w).2.
Proof.
  intros Hw. unfold run.
  assert (Hw' : exclusive (emit (Printed LogStarted) w)) by by eapply tables_only, Hw.
  pose proof (keeps_run_loop p turns _ Hw') as Hk.
  unfold world_of, world_has_world in Hk.
  destruct (run_loop p turns _) as [[[]|e] w1]; simpl in *;
    try done; by eapply tables_only, Hk.
Qed.

(** [move_to_dlq] for every oracle: both statements take effect, or none. *)
Lemma move_to_dlq_atomic (reason : string) (j : Job) (w : world) :
  let res := move_to_dlq reason (j, w) in
  (res.1 = Ok tt
   ∧ jobs res.2.2 = remove_row (id j) (jobs w)
   ∧ dlq res.2.2 = (dlq w ++ [mkDlq (id j) j (clock w) reason])
   ∧ (id j ∉ row_ids (jobs res.2.2)) ∧ id j ∈ dlq_ids (dlq res.2.2))
  ∨ (∃ e, res.1 = Raise e ∧ jobs res.2.2 = jobs w ∧ dlq res.2.2 = dlq w).
Proof.
  unfold move_to_dlq, on_store, storage_call. destruct w as [js d c t fs tr]. simpl.
  assert (Hin : id j ∈ dlq_ids (d ++ [mkDlq (id j) j t reason])).
  { unfold dlq_ids. rewrite fmap_app, elem_of_app. right. by left. }
  assert (Hout : id j ∉ row_ids (remove_row (id j) js)).
  { rewrite elem_of_row_ids_remove_row. naive_solver. }
  destruct fs as [|[] fs]; simpl; try destruct (find_dlq (id j) d); simpl; eauto 10.
Qed.

Lemma find_dlq_Some (i : string) (d : list dlq_row) (x : dlq_row) :
  find_dlq i d = Some x → dlq_id x = i ∧ x ∈ d.
Proof.
  unfold find_dlq. induction d as [|y d IH]; simpl; [done|].
  case_decide.
  - intros [= <-]. split; [done | left].
  - intros Hf. destruct (IH Hf). split; [done | by right].
Qed.

Lemma elem_of_row_ids_app (k : string) (js1 js2 : list row) :
  k ∈ row_ids (js1 ++ js2) ↔ k ∈ row_ids js1 ∨ k ∈ row_ids js2.
Proof. unfold row_ids. by rewrite fmap_app, elem_of_app. Qed.

Lemma enqueue_exclusive (j : Job) (w : world) :
  exclusive w → id j ∉ dlq_ids (dlq w) → exclusive (enqueue j w).2.
Proof.
  intros Hw Hj. unfold enqueue, add_job, on_store, storage_call.
  destruct w as [js d c t fs tr]. simpl in *.
  destruct fs as [|[] fs]; simpl; intros k Hk Hd; simpl in *;
    try (by eapply Hw);
    apply elem_of_row_ids_app in Hk as [Hk|Hk];
    try (apply elem_of_row_ids_remove_row in Hk as [_ Hk]; by eapply Hw);
    apply list_elem_of_singleton in Hk; simpl in Hk; by subst.
Qed.

Lemma dlq_retry_exclusive (i : string) (w : world) :
  exclusive w → dlq_keyed w → (dlq_retry i w).1 = 0 →
  exclusive (dlq_retry i w).2
  ∧ i ∈ row_ids (jobs (dlq_retry i w).2)
  ∧ i ∉ dlq_ids (dlq (dlq_retry i w).2).
Proof.
  intros Hw Hkey. unfold dlq_retry, get_dlq_job, add_job, remove_from_dlq, on_store,
    storage_call.
  destruct w as [js d c t fs tr]. unfold dlq_keyed in Hkey. simpl in *.
  assert (Hgoal : ∀ x, find_dlq i d = Some x →
            let js' := remove_row (id (job_data x)) js
                       ++ [mkRow (set_next_retry_at None (set_updated_at t
                             (set_next_retry_at None (set_error_message None
                                (set_attempts 0 (set_state PENDING (job_data x))))))) 0] in
            (∀ k, k ∈ row_ids js' → k ∈ dlq_ids (remove_dlq i d) → False)
            ∧ i ∈ row_ids js' ∧ i ∉ dlq_ids (remove_dlq i d)).
  { intros x Hx js'. apply find_dlq_Some in Hx as [Hxi Hxd].
    assert (Hid : id (job_data x) = i).
    { rewrite <-Hxi. by eapply (proj1 (Forall_forall _ _) Hkey). }
    subst js'. rewrite Hid. split_and!.
    - intros k Hk Hd. apply elem_of_dlq_ids_remove_dlq in Hd as [Hne Hd].
      apply elem_of_row_ids_app in Hk as [Hk|Hk].
      + apply elem_of_row_ids_remove_row in Hk as [_ Hk]. by eapply Hw.
      + apply list_elem_of_singleton in Hk. simpl in Hk. congruence.
    - apply elem_of_row_ids_app. right. apply list_elem_of_singleton. by simpl.
    - rewrite elem_of_dlq_ids_remove_dlq. naive_solver. }
  destruct fs as [|[] [|[] [|[] fs]]]; simpl;
    destruct (find_dlq i d) as [x|] eqn:Hx; simpl; try discriminate;
    intros _; by apply Hgoal.
Qed.

Lemma dlq_remove_exclusive (i : string) (w : world) :
  exclusive w → exclusive (dlq_remove i w).2.
Proof.
  intros Hw. unfold dlq_remove.
  pose proof (keeps_get_dlq_job i w Hw) as H1. unfold world_of, world_has_world in H1.
  destruct (get_dlq_job i w) as [[[job|]|e] w1]; simpl in *; try done.
  pose proof (keeps_remove_from_dlq i w1 H1) as H2.
  by destruct (remove_from_dlq i w1) as [[[]|e] w2].
Qed.

Lemma delete_exclusive (i : string) (w : world) :
  exclusive w → exclusive (delete i w).2.
Proof.
  intros Hw. unfold delete.
  pose proof (keeps_get_job i w Hw) as H1. unfold world_of, world_has_world in H1.
  destruct (get_job i w) as [[[job|]|e] w1]; simpl in *; try done.
  pose proof (keeps_delete_job i w1 H1) as H2.
  by destruct (delete_job i w1) as [[[]|e] w2].
Qed.

Lemma config_set_exclusive (key : string) (value : Z) (w : world) :
  exclusive w → exclusive (config_set key value w).2.
Proof.
  intros Hw. unfold config_set.
  pose proof (keeps_set_config key value w Hw) as H1.
  by destruct (set_config key value w) as [[[]|e] w1].
Qed.

(** C4, as stated, fails at the boundary.  [queuectl enqueue] with the id of
    a dead job inserts the live row and leaves the dead-letter row: the id is
    in both tables.  [queuectl dlq retry] is two transactions, [add_job] and
    then [remove_from_dlq]: when the second one fails the id is in both
    tables as well. *)
Lemma C4_enqueue_or_broken_requeue_duplicates_id :
  exclusive (one_dead [])
  ∧ ¬ exclusive (enqueue (sample_job "j1" "2024-01-02T00:00:00Z" PENDING 0) (one_dead [])).2
  ∧ (dlq_retry "j1" (one_dead [false; false; true])).1 = 1
  ∧ ¬ exclusive (dlq_retry "j1" (one_dead [false; false; true])).2.
Proof.
  split_and!.
  - intros i Hi _. by apply elem_of_nil in Hi.
  - intros H. apply (H "j1"); by left.
  - reflexivity.
  - intros H. apply (H "j1"); by left.
Qed.

(** C4, amended: [move_to_dlq] inserts the dead-letter row and deletes the
    live row in one transaction: after it, for every oracle, either both have
    taken effect (the id is in the dead-letter table only) or it has raised
    and both tables are as before.  From a store where no id is in both
    tables, the worker ([run], any turns, any oracle) and the commands
    [dlq remove], [delete] and [config set] lead to such a store again; so
    does [enqueue] of an id that is not in the dead-letter table, and a
    [dlq retry] that completes (exit status 0), after which the id is in the
    live table only.  [add_job] itself does not look at the dead-letter
    table. *)
Theorem C4_exclusive_tables :
  (∀ reason j w,
     let res := move_to_dlq reason (j, w) in
     (res.1 = Ok tt
      ∧ jobs res.2.2 = remove_row (id j) (jobs w)
      ∧ dlq res.2.2 = (dlq w ++ [mkDlq (id j) j (clock w) reason])
      ∧ (id j ∉ row_ids (jobs res.2.2)) ∧ id j ∈ dlq_ids (dlq res.2.2))
     ∨ (∃ e, res.1 = Raise e ∧ jobs res.2.2 = jobs w ∧ dlq res.2.2 = dlq w))
  ∧ (∀ p turns w, exclusive w → exclusive (run p turns w).2)
  ∧ (∀ i w, exclusive w → exclusive (dlq_remove i w).2)
  ∧ (∀ i w, exclusive w → exclusive (delete i w).2)
  ∧ (∀ key value w, exclusive w → exclusive (config_set key value w).2)
  ∧ (∀ j w, exclusive w → id j ∉ dlq_ids (dlq w) → exclusive (enqueue j w).2)
  ∧ (∀ i w, exclusive w → dlq_keyed w → (dlq_retry i w).1 = 0 →
       exclusive (dlq_retry i w).2
       ∧ i ∈ row_ids (jobs (dlq_retry i w).2)
       ∧ i ∉ dlq_ids (dlq (dlq_retry i w).2)).
Proof.
  split_and!.
  - apply move_to_dlq_atomic.
  - apply run_exclusive.
  - apply dlq_remove_exclusive.
  - apply delete_exclusive.
  - apply config_set_exclusive.
  - apply enqueue_exclusive.
  - apply dlq_retry_exclusive.
Qed.

Lemma C4_exclusive_tables_witness :
  exclusive (dlq_retry "j1" (one_dead [])).2
  ∧ "j1" ∈ row_ids (jobs (dlq_retry "j1" (one_dead [])).2)
  ∧ "j1" ∉ dlq_ids (dlq (dlq_retry "j1" (one_dead [])).2).
Proof.
  refine (proj2 (proj2 (proj2 (proj2 (proj2 (proj2 C4_exclusive_tables)))))
            "j1" (one_dead []) _ _ _).
  - intros i Hi _. by apply elem_of_nil in Hi.
  - repeat constructor.
  - reflexivity.
Defined.

(** ** C2: two workers in acquire_job_lock *)

(** The two steps, run without anyone in between, are the method. *)
Lemma lock_steps_are_acquire_job_lock (i : string) (d : Z) (w : world) :
  next_call_ok w →
  let '(c1, w1) := lock_step (Calling i d) w in
  let '(c2, w2) := lock_step c1 w1 in
  ∃ b, c2 = Returned b
       ∧ (acquire_job_lock i d w).1 = Ok b
       ∧ jobs (acquire_job_lock i d w).2 = jobs w2.
Proof.
  intros Hok. rewrite (acquire_job_lock_ok _ _ _ Hok). simpl.
  destruct (lock_is_free (clock w) (select_locked_until i (jobs w)));
    eexists; split_and!; reflexivity.
Qed.

(** X22: calls of [acquire_job_lock] that do not overlap exclude each other.
    On a store that does not fail, after a call that returned [True] with a
    lease of [d1] seconds, a call for the same job at any instant up to and
    including the end of the lease returns [False], whatever duration it
    asks for. *)
Lemma acquire_job_lock_then_refused (i : string) (d1 d2 t' : Z) (w : world) :
  calm w →
  (acquire_job_lock i d1 w).1 = Ok true →
  t' ≤ clock w + d1 →
  (acquire_job_lock i d2 (set_clock t' (acquire_job_lock i d1 w).2)).1 = Ok false.
Proof.
  intros Hcalm. rewrite (acquire_job_lock_ok _ _ _ (calm_next_call_ok _ Hcalm)).
  destruct (lock_is_free (clock w) (select_locked_until i (jobs w))) eqn:Hfree;
    [|discriminate].
  intros _ Ht. simpl. rewrite acquire_job_lock_ok.
  2:{ apply calm_next_call_ok. unfold calm in *. simpl. by rewrite Hcalm. }
  simpl. unfold select_locked_until, update_locked_until in *.
  rewrite find_row_update_row, decide_True by done.
  destruct (find_row i (jobs w)) as [r|]; [|discriminate]. simpl.
  by rewrite bool_decide_eq_false_2 by lia.
Qed.

(** C2: the claim fails on the code.  Two workers call
    [acquire_job_lock("j1", 300)] on a job that nobody holds; both read
    [locked_until = 0] before either writes; both write; both return [True].
    The second success comes while the lease of the first, until instant 400,
    is running. *)
Theorem C2_both_workers_acquire :
  let '(a, b, w) := interleave [true; false; true; false]
                      (Calling "j1" 300) (Calling "j1" 300) (one_pending []) in
  a = Returned true ∧ b = Returned true
  ∧ select_locked_until "j1" (jobs w) = Some 400
  ∧ clock w < 400.
Proof. vm_compute. split_and!; done. Qed.

(** * Further properties of the code *)

(** ** More on the tables *)

Lemma find_row_fmap (k : string) (g : row → row) (js : list row) :
  (∀ r, id (row_job (g r)) = id (row_job r)) →
  find_row k (g <$> js) = g <$> find_row k js.
Proof.
  intros Hg. induction js as [|r js IH]; simpl; [done|].
  rewrite Hg. by case_decide.
Qed.

Lemma update_row_cons (i : string) (f : row → row) (r : row) (js : list row) :
  update_row i f (r :: js)
  = (if decide (id (row_job r) = i) then f r else r) :: update_row i f js.
Proof. done. Qed.

Lemma update_row_absent (i : string) (f : row → row) (js : list row) :
  find_row i js = None → update_row i f js = js.
Proof.
  induction js as [|r js IH]; [done|]. rewrite update_row_cons. simpl.
  case_decide; [done|]. intros Hf. by rewrite IH.
Qed.

Lemma remove_row_absent (i : string) (js : list row) :
  find_row i js = None → remove_row i js = js.
Proof.
  unfold remove_row. induction js as [|r js IH]; [done|]. simpl.
  case_decide; [done|]. intros Hf. rewrite filter_cons_True by done. by rewrite IH.
Qed.

Lemma find_dlq_remove_dlq (i k : string) (d : list dlq_row) :
  find_dlq k (remove_dlq i d) = if decide (i = k) then None else find_dlq k d.
Proof.
  unfold remove_dlq, find_dlq. induction d as [|r d IH]; simpl.
  - by case_decide.
  - rewrite filter_cons. destruct (decide (dlq_id r ≠ i)) as [Hi|Hi]; simpl.
    + rewrite IH. repeat case_decide; simplify_eq; done.
    + apply dec_stable in Hi. rewrite IH. repeat case_decide; simplify_eq; done.
Qed.

Lemma NoDup_row_ids_remove_row (i : string) (js : list row) :
  NoDup (row_ids js) → NoDup (row_ids (remove_row i js)).
Proof.
  unfold row_ids, remove_row. induction js as [|r js IH]; simpl; [done|].
  rewrite NoDup_cons. intros [Hr Hjs]. rewrite filter_cons.
  case_decide; [|by apply IH]. simpl. apply NoDup_cons. split; [|by apply IH].
  intros Hin. apply Hr. apply list_elem_of_fmap in Hin as (r' & Hr' & Hin).
  apply list_elem_of_filter in Hin as [_ Hin]. apply list_elem_of_fmap. eauto.
Qed.

(** ** release_job_lock and clear_expired_locks *)

Lemma acquire_job_lock_result (i : string) (d : Z) (w : world) :
  next_call_ok w →
  (acquire_job_lock i d w).1
  = Ok (lock_is_free (clock w) (select_locked_until i (jobs w))).
Proof.
  intros Hok. rewrite (acquire_job_lock_ok _ _ _ Hok).
  by destruct (lock_is_free _ _).
Qed.

Lemma release_job_lock_ok (i : string) (w : world) :
  next_call_ok w →
  release_job_lock i w
  = (Ok tt, set_jobs (update_locked_until i 0 (jobs w)) (entered m_release_job_lock i w)).
Proof. intros Hok. unfold release_job_lock. by rewrite (storage_call_ok _ _ _ _ Hok). Qed.

(** X1: [release_job_lock(i)] sets the [locked_until] of job [i] to 0,
    whatever lease was running, and changes nothing else: no other column, no
    other row, no other table; for an id that is not in the table it changes
    nothing.  The job can then be locked at once, at any positive instant. *)
Theorem release_job_lock_frees (i : string) (d : Z) (w : world) :
  next_call_ok w →
  let res := release_job_lock i w in
  res.1 = Ok tt
  ∧ select_locked_until i (jobs res.2) = (λ _, 0) <$> select_locked_until i (jobs w)
  ∧ (∀ k, row_job <$> find_row k (jobs res.2) = row_job <$> find_row k (jobs w))
  ∧ (∀ k, k ≠ i → find_row k (jobs res.2) = find_row k (jobs w))
  ∧ (find_row i (jobs w) = None → jobs res.2 = jobs w)
  ∧ dlq res.2 = dlq w ∧ config res.2 = config w
  ∧ (0 < clock w → is_Some (find_row i (jobs w)) →
       (acquire_job_lock i d (set_faults [] res.2)).1 = Ok true).
Proof.
  intros Hok res. subst res. rewrite (release_job_lock_ok _ _ Hok). simpl.
  unfold select_locked_until, update_locked_until. split_and!; try done.
  - rewrite find_row_update_row, decide_True by done.
    by destruct (find_row i (jobs w)).
  - intros k. rewrite find_row_update_row by done.
    case_decide; [|done]. by destruct (find_row k (jobs w)).
  - intros k Hk. rewrite find_row_update_row by done. by rewrite decide_False.
  - apply update_row_absent.
  - intros Hpos [r Hr]. rewrite acquire_job_lock_ok by done. simpl.
    unfold select_locked_until, update_locked_until.
    rewrite find_row_update_row, decide_True, Hr by done. simpl.
    by rewrite bool_decide_eq_true_2 by lia.
Qed.

Lemma release_job_lock_frees_witness :
  (acquire_job_lock "j1" 300 (one_leased [])).1 = Ok false
  ∧ (acquire_job_lock "j1" 300
       (set_faults [] (release_job_lock "j1" (one_leased [])).2)).1 = Ok true.
Proof.
  split; [reflexivity|].
  refine (proj2 (proj2 (proj2 (proj2 (proj2 (proj2 (proj2
    (release_job_lock_frees "j1" 300 (one_leased []) _))))))) _ _).
  - vm_compute. discriminate.
  - reflexivity.
  - by eexists.
Defined.

Lemma clear_expired_locks_ok (w : world) :
  next_call_ok w →
  clear_expired_locks w
  = (Ok tt,
     set_jobs ((λ r, if bool_decide (locked_until r < clock w ∧ locked_until r > 0)
                     then mkRow (row_job r) 0 else r) <$> jobs w)
       (entered m_clear_expired_locks "" w)).
Proof. intros Hok. unfold clear_expired_locks. by rewrite (storage_call_ok _ _ _ _ Hok). Qed.

(** X2: [clear_expired_locks] is bookkeeping.  It changes no column but
    [locked_until], keeps every lease that has not run out, and makes no
    difference to [acquire_job_lock]: for every job and duration, the call
    returns after the sweep what it returns without it. *)
Theorem clear_expired_locks_is_bookkeeping (i : string) (d : Z) (w : world) :
  next_call_ok w →
  let res := clear_expired_locks w in
  res.1 = Ok tt
  ∧ (∀ k, row_job <$> find_row k (jobs res.2) = row_job <$> find_row k (jobs w))
  ∧ (∀ k l, select_locked_until k (jobs w) = Some l → clock w ≤ l →
            select_locked_until k (jobs res.2) = Some l)
  ∧ dlq res.2 = dlq w ∧ config res.2 = config w
  ∧ (acquire_job_lock i d (set_faults [] res.2)).1
    = (acquire_job_lock i d (set_faults [] w)).1.
Proof.
  intros Hok res. subst res. rewrite (clear_expired_locks_ok _ Hok). simpl.
  set (g := λ r : row, if bool_decide (locked_until r < clock w ∧ locked_until r > 0)
                       then mkRow (row_job r) 0 else r).
  assert (Hg : ∀ r, id (row_job (g r)) = id (row_job r)).
  { intros r. unfold g. by case_bool_decide. }
  unfold select_locked_until. split_and!; try done.
  - intros k. rewrite find_row_fmap by done.
    destruct (find_row k (jobs w)) as [r|]; [|done]. simpl. unfold g.
    by case_bool_decide.
  - intros k l. rewrite find_row_fmap by done.
    destruct (find_row k (jobs w)) as [r|]; [|done]. simpl. intros [= <-] Hl.
    unfold g. rewrite bool_decide_eq_false_2 by lia. done.
  - rewrite !acquire_job_lock_result by done. simpl. f_equal.
    unfold select_locked_until. rewrite find_row_fmap by done.
    destruct (find_row i (jobs w)) as [r|]; [|done]. simpl.
    unfold g.
    destruct (bool_decide (locked_until r < clock w ∧ locked_until r > 0)) eqn:Hc;
      simpl; [|done].
    apply bool_decide_eq_true in Hc. by rewrite !bool_decide_eq_true_2 by lia.
Qed.

Lemma clear_expired_locks_is_bookkeeping_witness :
  (acquire_job_lock "j1" 300 (set_faults [] (clear_expired_locks (one_leased [])).2)).1
  = Ok false.
Proof.
  assert (Hok : next_call_ok (one_leased [])) by (vm_compute; discriminate).
  destruct (clear_expired_locks_is_bookkeeping "j1" 300 (one_leased []) Hok)
    as (_ & _ & _ & _ & _ & ->).
  reflexivity.
Defined.

(** ** add_job, get_job, update_job, delete_job *)

Lemma get_job_ok (i : string) (w : world) :
  next_call_ok w →
  get_job i w = (Ok (row_job <$> find_row i (jobs w)), entered m_get_job i w).
Proof. intros Hok. unfold get_job. by rewrite (storage_call_ok _ _ _ _ Hok). Qed.

(** X3: [add_job] then [get_job].  What [get_job] returns after [add_job(job)]
    is the job with [updated_at] at the instant of the insert and
    [next_retry_at] dropped, for a new id as for one that was there; what it
    returns for any other id is what it returned before; and the ids of the
    table stay distinct. *)
Theorem add_job_then_get_job (j : Job) (w : world) :
  next_call_ok w →
  NoDup (row_ids (jobs w)) →
  let w' := (add_job (j, w)).2.2 in
  (get_job (id j) (set_faults [] w')).1
  = Ok (Some (set_next_retry_at None (set_updated_at (clock w) j)))
  ∧ (∀ k, k ≠ id j →
       (get_job k (set_faults [] w')).1 = (get_job k (set_faults [] w)).1)
  ∧ NoDup (row_ids (jobs w'))
  ∧ dlq w' = dlq w.
Proof.
  intros Hok Hnd w'. subst w'. rewrite (add_job_ok _ _ Hok). cbn [fst snd].
  split_and!; try done.
  - rewrite get_job_ok by done. simpl.
    rewrite find_row_app, find_row_remove_row, decide_True by done.
    simpl. by rewrite decide_True.
  - intros k Hk. rewrite !get_job_ok by done. simpl.
    rewrite find_row_app, find_row_remove_row, decide_False by done.
    destruct (find_row k (jobs w)); [done|]. simpl. by rewrite decide_False.
  - cbn [jobs set_jobs]. unfold row_ids. rewrite fmap_app. apply NoDup_app. split_and!.
    + by apply NoDup_row_ids_remove_row.
    + intros k Hk Hin. apply elem_of_row_ids_remove_row in Hk as [Hne _].
      apply list_elem_of_singleton in Hin. done.
    + apply NoDup_singleton.
Qed.

Lemma add_job_then_get_job_witness :
  (get_job "j1"
     (set_faults []
        (add_job (mkJob "j1" "exit 0" PENDING 0 3 "2024-01-05T00:00:00Z" 0
                    (Some (Iso 500)) None, one_leased [])).2.2)).1
  = Ok (Some (mkJob "j1" "exit 0" PENDING 0 3 "2024-01-05T00:00:00Z" 100 None None)).
Proof.
  refine (proj1 (add_job_then_get_job
                   (mkJob "j1" "exit 0" PENDING 0 3 "2024-01-05T00:00:00Z" 0
                      (Some (Iso 500)) None) (one_leased []) _ _)).
  - vm_compute. discriminate.
  - apply NoDup_singleton.
Defined.

(** X4: [update_job] never inserts and never touches a lock: for every
    oracle the ids of the table and the [locked_until] of every row are as
    before, and so is the dead-letter table; for an id that is not in the
    table nothing changes.  When the call goes through, the row of the id
    holds the job's columns, [updated_at] at now, and its old
    [locked_until]. *)
Theorem update_job_keeps_rows_and_locks (j : Job) (w : world) :
  let w' := (update_job (j, w)).2.2 in
  row_ids (jobs w') = row_ids (jobs w)
  ∧ (∀ k, select_locked_until k (jobs w') = select_locked_until k (jobs w))
  ∧ dlq w' = dlq w
  ∧ (find_row (id j) (jobs w) = None → jobs w' = jobs w)
  ∧ (next_call_ok w →
       find_row (id j) (jobs w')
       = (λ r, mkRow (set_updated_at (clock w) j) (locked_until r))
           <$> find_row (id j) (jobs w)).
Proof.
  intros w'. subst w'. unfold update_job, on_store.
  destruct (decide (next_call_ok w)) as [Hok|Hok].
  - rewrite (storage_call_ok _ _ _ _ Hok). simpl. split_and!; try done.
    + by apply row_ids_update_row.
    + intros k. unfold select_locked_until. rewrite find_row_update_row by done.
      case_decide; [|done]. by destruct (find_row k (jobs w)).
    + apply update_row_absent.
    + intros _. rewrite find_row_update_row by done. by rewrite decide_True.
  - rewrite (storage_call_fault _ _ _ _ Hok). simpl. split_and!; done.
Qed.

Lemma delete_job_ok (i : string) (w : world) :
  next_call_ok w →
  delete_job i w = (Ok tt, set_jobs (remove_row i (jobs w)) (entered m_delete_job i w)).
Proof. intros Hok. unfold delete_job. by rewrite (storage_call_ok _ _ _ _ Hok). Qed.

(** X5: [queuectl delete JOB_ID] on a store that does not fail.  When the
    deletion is confirmed and the id is in the live table the command ends
    with status 0, the row is gone and every other row is as before; when
    the deletion is not confirmed, or the id is not in the live table, the
    command ends with status 1 and the table is as before.  Either way the
    dead-letter table is not touched: a dead job cannot be deleted this
    way. *)
Theorem delete_removes_that_job_only (confirmed : bool) (i : string) (w : world) :
  calm w →
  let res := confirmation_option confirmed (delete i) w in
  (confirmed = true → is_Some (find_row i (jobs w)) →
     res.1 = 0 ∧ find_row i (jobs res.2) = None
     ∧ ∀ k, k ≠ i → find_row k (jobs res.2) = find_row k (jobs w))
  ∧ (confirmed = false ∨ find_row i (jobs w) = None →
     res.1 = 1 ∧ jobs res.2 = jobs w)
  ∧ dlq res.2 = dlq w.
Proof.
  intros Hcalm res. subst res. unfold confirmation_option.
  destruct confirmed; [|split_and!; [done | done | done]].
  unfold delete. rewrite (get_job_ok _ _ (calm_next_call_ok _ Hcalm)).
  destruct (find_row i (jobs w)) as [r|] eqn:Hr; simpl.
  - rewrite delete_job_ok.
    2:{ apply calm_next_call_ok. unfold calm in *. simpl. by rewrite Hcalm. }
    simpl. split_and!; try done; [|by intros [?|?]..]. intros _ _. split_and!; try done.
    + rewrite find_row_remove_row. by rewrite decide_True.
    + intros k Hk. rewrite find_row_remove_row. by rewrite decide_False.
  - split_and!; try done; by intros _ [? ?].
Qed.

Lemma delete_removes_that_job_only_witness :
  ((confirmation_option true (delete "j1") (one_pending [])).1 = 0
   ∧ find_row "j1" (jobs (confirmation_option true (delete "j1") (one_pending [])).2)
     = None)
  ∧ (confirmation_option false (delete "j1") (one_pending [])).1 = 1
  ∧ jobs (confirmation_option false (delete "j1") (one_pending [])).2
    = jobs (one_pending []).
Proof.
  split.
  - destruct (delete_removes_that_job_only true "j1" (one_pending []) eq_refl)
      as (H & _ & _).
    destruct H as (H1 & H2 & _); [done | by eexists | done].
  - destruct (delete_removes_that_job_only false "j1" (one_pending []) eq_refl)
      as (_ & H & _).
    apply H. by left.
Defined.

Lemma update_job_keeps_rows_and_locks_witness :
  let w' := (update_job (sample_job "j1" "2024-01-01T00:00:00Z" COMPLETED 1,
                         one_leased [])).2.2 in
  select_locked_until "j1" (jobs w') = Some 400
  ∧ (state ∘ row_job) <$> find_row "j1" (jobs w') = Some COMPLETED.
Proof.
  intros w'.
  destruct (update_job_keeps_rows_and_locks
              (sample_job "j1" "2024-01-01T00:00:00Z" COMPLETED 1) (one_leased []))
    as (_ & Hl & _ & _ & Hr).
  split; [by rewrite Hl|]. subst w'.
  assert (Hok : next_call_ok (one_leased [])) by (vm_compute; discriminate).
  etrans; [exact (f_equal (fmap (state ∘ row_job)) (Hr Hok)) | reflexivity].
Defined.

(** ** The listings *)

Lemma storage_query_ok {A} (body : world → A) (w : world) :
  next_call_ok w →
  storage_query body w = (Ok (body w), set_faults (tail (faults w)) w).
Proof.
  unfold next_call_ok, storage_query. destruct w as [js d c t fs tr]; simpl.
  destruct fs as [|[] fs]; simpl; intros Hok; [done | by destruct Hok | done].
Qed.

#[global] Instance created_ge_total : Total created_ge.
Proof. intros a b. unfold created_ge. destruct (total created_le a b); auto. Qed.

(** X6: [get_jobs_by_state(s)] returns the jobs that are in state [s], each
    one once, in ascending order of [created_at], and only reads the store.
    For [s] pending it is the head of what [get_ready_jobs] returns. *)
Theorem get_jobs_by_state_sorted (s : JobState) (w : world) :
  next_call_ok w →
  ∃ l, (get_jobs_by_state s w).1 = Ok l
       ∧ Sorted job_created_le l
       ∧ l ≡ₚ row_job <$> rows_by_state s (jobs w)
       ∧ Forall (λ j, state j = s) l
       ∧ jobs (get_jobs_by_state s w).2 = jobs w
       ∧ dlq (get_jobs_by_state s w).2 = dlq w
       ∧ (s = PENDING → ∃ failed, (get_ready_jobs w).1 = Ok (l ++ failed)).
Proof.
  intros Hok. unfold get_jobs_by_state. rewrite (storage_query_ok _ _ Hok).
  eexists. split; [reflexivity|]. simpl. split_and!; try done.
  - apply Sorted_fmap with (R1 := created_le); [done|]. apply Sorted_merge_sort, _.
  - by rewrite merge_sort_Permutation.
  - apply Forall_fmap, Forall_forall. intros r Hr. simpl.
    rewrite merge_sort_Permutation in Hr. by apply list_elem_of_filter in Hr as [? _].
  - intros ->. rewrite (get_ready_jobs_ok _ Hok). by eexists.
Qed.

Lemma get_jobs_by_state_sorted_witness :
  ∃ l, (get_jobs_by_state PENDING mixed_ready).1 = Ok l
       ∧ Sorted job_created_le l
       ∧ l ≡ₚ row_job <$> rows_by_state PENDING (jobs mixed_ready).
Proof.
  assert (Hok : next_call_ok mixed_ready) by (vm_compute; discriminate).
  destruct (get_jobs_by_state_sorted PENDING mixed_ready Hok)
    as (l & H1 & H2 & H3 & _).
  by exists l.
Defined.

(** X7: [get_all_jobs] returns every job of the live table, each one once,
    most recently created first, and only reads the store. *)
Theorem get_all_jobs_newest_first (w : world) :
  next_call_ok w →
  ∃ l, (get_all_jobs w).1 = Ok l
       ∧ Sorted (flip job_created_le) l
       ∧ l ≡ₚ row_job <$> jobs w
       ∧ length l = length (jobs w)
       ∧ jobs (get_all_jobs w).2 = jobs w
       ∧ dlq (get_all_jobs w).2 = dlq w.
Proof.
  intros Hok. unfold get_all_jobs. rewrite (storage_query_ok _ _ Hok).
  eexists. split; [reflexivity|]. simpl. split_and!; try done.
  - apply Sorted_fmap with (R1 := created_ge); [done|]. apply Sorted_merge_sort, _.
  - by rewrite merge_sort_Permutation.
  - by rewrite length_fmap, merge_sort_Permutation.
Qed.

Lemma get_all_jobs_newest_first_witness :
  ∃ l, (get_all_jobs mixed_ready).1 = Ok l
       ∧ Sorted (flip job_created_le) l
       ∧ length l = 3%nat.
Proof.
  assert (Hok : next_call_ok mixed_ready) by (vm_compute; discriminate).
  destruct (get_all_jobs_newest_first mixed_ready Hok) as (l & H1 & H2 & _ & H3 & _).
  by exists l.
Defined.

(** ** count_jobs_by_state and status *)

Lemma length_by_state (js : list row) :
  length js
  = (length (rows_by_state PENDING js) + length (rows_by_state PROCESSING js)
     + length (rows_by_state COMPLETED js) + length (rows_by_state FAILED js)
     + length (rows_by_state DEAD js))%nat.
Proof.
  unfold rows_by_state. induction js as [|r js IH]; [done|].
  rewrite !filter_cons. simpl length at 1. rewrite IH.
  destruct (state (row_job r)); repeat case_decide; simpl; try done; lia.
Qed.

Lemma counts_lookup (n1 n2 n3 n4 n5 : nat) (s : JobState) :
  foldl (λ (counts : gmap string nat) (row : string * nat), <[row.1 := row.2]> counts)
        (list_to_map ((λ s, (state_value s, 0%nat)) <$> JobState_members))
        (omap (λ s, let count := match s with
                                 | PENDING => n1 | PROCESSING => n2 | COMPLETED => n3
                                 | FAILED => n4 | DEAD => n5
                                 end in
                    if decide (count = 0%nat) then None else Some (state_value s, count))
              JobState_members)
    !! state_value s
  = Some match s with
         | PENDING => n1 | PROCESSING => n2 | COMPLETED => n3
         | FAILED => n4 | DEAD => n5
         end.
Proof.
  unfold JobState_members. simpl.
  repeat case_decide; simpl; destruct s; simpl; simplify_map_eq; congruence.
Qed.

Lemma counts_keys (n1 n2 n3 n4 n5 : nat) (k : string) :
  is_Some
    (foldl (λ (counts : gmap string nat) (row : string * nat), <[row.1 := row.2]> counts)
        (list_to_map ((λ s, (state_value s, 0%nat)) <$> JobState_members))
        (omap (λ s, let count := match s with
                                 | PENDING => n1 | PROCESSING => n2 | COMPLETED => n3
                                 | FAILED => n4 | DEAD => n5
                                 end in
                    if decide (count = 0%nat) then None else Some (state_value s, count))
              JobState_members)
      !! k)
  ↔ k ∈ state_value <$> JobState_members.
Proof.
  unfold JobState_members. simpl.
  repeat case_decide; simpl; rewrite <-elem_of_dom; set_solver.
Qed.

Lemma count_jobs_by_state_ok (w : world) :
  next_call_ok w →
  ∃ counts,
    (count_jobs_by_state w).1 = Ok counts
    ∧ (∀ s, counts !! state_value s = Some (length (rows_by_state s (jobs w))))
    ∧ (∀ k, is_Some (counts !! k) ↔ k ∈ state_value <$> JobState_members)
    ∧ jobs (count_jobs_by_state w).2 = jobs w
    ∧ dlq (count_jobs_by_state w).2 = dlq w
    ∧ faults (count_jobs_by_state w).2 = tail (faults w).
Proof.
  intros Hok. unfold count_jobs_by_state. rewrite (storage_query_ok _ _ Hok).
  eexists. split; [reflexivity|]. simpl. split_and!; try done.
  - intros s. unfold group_by_state.
    pose proof (counts_lookup (length (rows_by_state PENDING (jobs w)))
                  (length (rows_by_state PROCESSING (jobs w)))
                  (length (rows_by_state COMPLETED (jobs w)))
                  (length (rows_by_state FAILED (jobs w)))
                  (length (rows_by_state DEAD (jobs w))) s) as H.
    by destruct s.
  - intros k. unfold group_by_state.
    exact (counts_keys (length (rows_by_state PENDING (jobs w)))
                  (length (rows_by_state PROCESSING (jobs w)))
                  (length (rows_by_state COMPLETED (jobs w)))
                  (length (rows_by_state FAILED (jobs w)))
                  (length (rows_by_state DEAD (jobs w))) k).
Qed.

(** X8: in the dictionary that [count_jobs_by_state] returns, each of the
    five state names is a key, and the value at it is the number of live
    jobs in that state, 0 when there is none; the five values add up to no
    more than the number of rows of the live table; the call only reads the
    store. *)
Theorem count_jobs_by_state_counts (w : world) :
  next_call_ok w →
  ∃ counts,
    (count_jobs_by_state w).1 = Ok counts
    ∧ (∀ s, counts !! state_value s = Some (length (rows_by_state s (jobs w))))
    ∧ (sum_list ((λ s, default 0%nat (counts !! state_value s)) <$> JobState_members)
       ≤ length (jobs w))%nat
    ∧ jobs (count_jobs_by_state w).2 = jobs w
    ∧ dlq (count_jobs_by_state w).2 = dlq w.
Proof.
  intros Hok.
  destruct (count_jobs_by_state_ok w Hok) as (counts & H1 & H2 & _ & H4 & H5 & _).
  exists counts. split_and!; try done.
  unfold JobState_members. rewrite !fmap_cons, !H2. simpl.
  rewrite (length_by_state (jobs w)). lia.
Qed.

Lemma count_jobs_by_state_counts_witness :
  ∃ counts,
    (count_jobs_by_state mixed_ready).1 = Ok counts
    ∧ counts !! "pending" = Some 2%nat
    ∧ counts !! "failed" = Some 1%nat
    ∧ counts !! "dead" = Some 0%nat.
Proof.
  assert (Hok : next_call_ok mixed_ready) by (vm_compute; discriminate).
  destruct (count_jobs_by_state_counts mixed_ready Hok) as (counts & H1 & H2 & _).
  exists counts. split; [done|].
  split_and!; [exact (H2 PENDING) | exact (H2 FAILED) | exact (H2 DEAD)].
Defined.

(** X9: [queuectl status] on a store that does not fail ends with status 0
    and reports, for each state, the number of live jobs in it, and as the
    size of the dead-letter queue the number of rows of the dead-letter
    table; it changes neither table. *)
Theorem status_reports_both_tables (w : world) :
  calm w →
  ∃ counts,
    (status w).1 = (0, Some (counts, length (dlq w)))
    ∧ (∀ s, counts !! state_value s = Some (length (rows_by_state s (jobs w))))
    ∧ jobs (status w).2 = jobs w ∧ dlq (status w).2 = dlq w.
Proof.
  intros Hcalm. unfold status.
  destruct (count_jobs_by_state_ok w (calm_next_call_ok _ Hcalm))
    as (counts & H1 & H2 & _ & Hj & Hd & Hf).
  destruct (count_jobs_by_state w) as [r w1]. simpl in *. subst r.
  assert (Hok1 : next_call_ok w1).
  { apply calm_next_call_ok. unfold calm in *. by rewrite Hf, Hcalm. }
  unfold get_dlq_jobs. rewrite (storage_query_ok _ _ Hok1). simpl.
  exists counts. rewrite length_fmap, merge_sort_Permutation, Hd. done.
Qed.

Lemma status_reports_both_tables_witness :
  ∃ counts, (status (one_dead [])).1 = (0, Some (counts, 1%nat)).
Proof.
  destruct (status_reports_both_tables (one_dead []) eq_refl) as (counts & H & _).
  by exists counts.
Defined.

(** ** The commands that list and configure *)

(** X10: [queuectl list --limit N] on a store whose next call goes through
    prints a prefix of the listing ([get_jobs_by_state] with [--state],
    [get_all_jobs] without): its first [N] jobs when [N ≥ 0], all of them when
    there are fewer.  A negative [N] does not print nothing: it prints all
    but the last [-N] jobs. *)
Theorem list_jobs_limit (state : option JobState) (limit : Z) (w : world) :
  next_call_ok w →
  ∃ all,
    (match state with
     | Some s => get_jobs_by_state s
     | None => get_all_jobs
     end w).1 = Ok all
    ∧ (list_jobs state limit w).1 = (0, slice_to limit all)
    ∧ slice_to limit all `prefix_of` all
    ∧ (0 ≤ limit →
         length (slice_to limit all) = Nat.min (Z.to_nat limit) (length all))
    ∧ (limit < 0 →
         length (slice_to limit all) = (length all - Z.to_nat (- limit))%nat).
Proof.
  intros Hok. unfold list_jobs.
  destruct state as [s|]; unfold get_jobs_by_state, get_all_jobs;
    rewrite (storage_query_ok _ _ Hok); cbn [fst snd];
    (eexists; split; [reflexivity|]); unfold slice_to; (split_and!; try done).
  all: try (case_bool_decide; apply prefix_take).
  all: try (intros Hl; rewrite bool_decide_eq_true_2 by done; apply length_take).
  all: intros Hl; rewrite bool_decide_eq_false_2 by lia; rewrite length_take; lia.
Qed.

Lemma list_jobs_limit_witness :
  ∃ all,
    (get_all_jobs mixed_ready).1 = Ok all
    ∧ length (slice_to 2 all) = Nat.min 2 (length all)
    ∧ length (slice_to (-1) all) = (length all - 1)%nat.
Proof.
  assert (Hok : next_call_ok mixed_ready) by (vm_compute; discriminate).
  destruct (list_jobs_limit None 2 mixed_ready Hok) as (all & H1 & _ & _ & H2 & _).
  destruct (list_jobs_limit None (-1) mixed_ready Hok) as (all' & H1' & _ & _ & _ & H3).
  assert (all' = all) as -> by congruence.
  exists all. split_and!; [done | apply H2; lia | apply H3; lia].
Defined.

Lemma get_config_ok (w : world) :
  next_call_ok w → get_config w = (Ok (config w), entered m_get_config "" w).
Proof. intros Hok. unfold get_config. by rewrite (storage_call_ok _ _ _ _ Hok). Qed.

(** X11: [queuectl config set KEY VALUE] then [queuectl config get], on a
    store that does not fail.  The set ends with status 0; a get of [KEY]
    then prints [VALUE]; a get of any other key prints what it printed
    before; a get of a key that is not in the file ends with status 1.  The
    two tables are not touched. *)
Theorem config_set_then_get (key : string) (value : Z) (w : world) :
  calm w →
  let w' := (config_set key value w).2 in
  (config_set key value w).1 = 0
  ∧ (config_get_key key w').1 = (0, Some value)
  ∧ (∀ k, k ≠ key → (config_get_key k w').1 = (config_get_key k w).1)
  ∧ (∀ k, config w !! k = None → (config_get_key k w).1 = (1, None))
  ∧ jobs w' = jobs w ∧ dlq w' = dlq w.
Proof.
  intros Hcalm w'. subst w'. unfold config_set.
  rewrite (set_config_calm _ _ _ Hcalm). cbn [fst snd].
  unfold config_get_key. rewrite !get_config_ok by (by apply calm_next_call_ok).
  cbn [config]. split_and!; try done.
  - by rewrite lookup_insert_eq.
  - intros k Hk. rewrite lookup_insert_ne by done.
    by destruct (config w !! k).
  - intros k ->. done.
Qed.

Lemma config_set_then_get_witness :
  (config_get_key "max_retries" (one_pending [])).1 = (0, Some 3)
  ∧ (config_get_key "max_retries"
       (config_set "max_retries" 5 (one_pending [])).2).1 = (0, Some 5)
  ∧ (config_get_key "backoff_base"
       (config_set "max_retries" 5 (one_pending [])).2).1 = (0, Some 2).
Proof.
  destruct (config_set_then_get "max_retries" 5 (one_pending []) eq_refl)
    as (_ & H1 & H2 & _).
  split_and!; [reflexivity | exact H1 |].
  rewrite H2 by done. reflexivity.
Defined.

(** ** The dead-letter table *)

Lemma move_to_dlq_calm (reason : string) (j : Job) (w : world) :
  calm w →
  move_to_dlq reason (j, w)
  = match find_dlq (id j) (dlq w) with
    | Some _ =>
        (Raise IntegrityError,
         (j, mkWorld (jobs w) (dlq w) (config w) (clock w) []
               (trace w ++ [Called m_move_to_dlq (id j)])))
    | None =>
        (Ok tt,
         (j, mkWorld (remove_row (id j) (jobs w))
               (dlq w ++ [mkDlq (id j) j (clock w) reason])
               (config w) (clock w) []
               (trace w ++ [Called m_move_to_dlq (id j)])))
    end.
Proof.
  unfold calm. destruct w as [js d c t fs tr]. simpl. intros ->.
  unfold move_to_dlq, on_store, storage_call. simpl.
  by destruct (find_dlq (id j) d).
Qed.

Lemma get_dlq_job_ok (i : string) (w : world) :
  next_call_ok w →
  get_dlq_job i w = (Ok (job_data <$> find_dlq i (dlq w)), entered m_get_dlq_job i w).
Proof. intros Hok. unfold get_dlq_job. by rewrite (storage_call_ok _ _ _ _ Hok). Qed.

(** X12: a dead-letter record is written once.  On a store that does not
    fail, [move_to_dlq(job, reason)] for an id that is not in the dead-letter
    table makes [get_dlq_job(id)] return the job as it was given and
    [get_job(id)] return nothing; a second [move_to_dlq] with the same id,
    whatever the job and the reason, raises and leaves both tables, and so
    the record, as they were. *)
Theorem move_to_dlq_then_lookup (reason : string) (j : Job) (w : world) :
  calm w →
  find_dlq (id j) (dlq w) = None →
  let res := move_to_dlq reason (j, w) in
  let w' := res.2.2 in
  res.1 = Ok tt
  ∧ (get_dlq_job (id j) w').1 = Ok (Some j)
  ∧ (get_job (id j) w').1 = Ok None
  ∧ (∀ reason2 j2, id j2 = id j →
       let res2 := move_to_dlq reason2 (j2, w') in
       res2.1 = Raise IntegrityError
       ∧ jobs res2.2.2 = jobs w' ∧ dlq res2.2.2 = dlq w').
Proof.
  intros Hcalm Hd res w'. subst w' res. rewrite (move_to_dlq_calm _ _ _ Hcalm), Hd.
  cbn [fst snd].
  assert (Hfound : find_dlq (id j) (dlq w ++ [mkDlq (id j) j (clock w) reason])
                   = Some (mkDlq (id j) j (clock w) reason)).
  { rewrite find_dlq_app, Hd. unfold find_dlq. simpl. by rewrite decide_True. }
  split_and!; try done.
  - rewrite get_dlq_job_ok by done. cbn [fst dlq]. by rewrite Hfound.
  - rewrite get_job_ok by done. cbn [fst jobs].
    rewrite find_row_remove_row. by rewrite decide_True.
  - intros reason2 j2 Hid. rewrite move_to_dlq_calm by done. cbn [dlq].
    rewrite Hid, Hfound. done.
Qed.

Lemma move_to_dlq_then_lookup_witness :
  let j := sample_job "j1" "2024-01-01T00:00:00Z" DEAD 3 in
  (get_dlq_job "j1" (move_to_dlq "no more retries" (j, one_pending [])).2.2).1
  = Ok (Some j).
Proof.
  intros j.
  exact (proj1 (proj2 (move_to_dlq_then_lookup "no more retries" j (one_pending [])
                         eq_refl eq_refl))).
Defined.

Lemma add_job_calm (j : Job) (w : world) :
  calm w →
  add_job (j, w)
  = (Ok tt,
     (set_updated_at (clock w) j,
      mkWorld (remove_row (id j) (jobs w)
               ++ [mkRow (set_next_retry_at None (set_updated_at (clock w) j)) 0])
        (dlq w) (config w) (clock w) [] (trace w ++ [Called m_add_job (id j)]))).
Proof.
  unfold calm. destruct w as [js d c t fs tr]. simpl. intros ->.
  unfold add_job, on_store, storage_call. by simpl.
Qed.

(** X13: [queuectl dlq retry JOB_ID] on a store that does not fail.  For an
    id that is in the dead-letter table the command ends with status 0; the
    live table then holds the job as pending, with [attempts] 0, no
    [error_message], no [next_retry_at], no lock, [updated_at] at now, and
    the [command], [max_retries] and [created_at] of the snapshot; the
    dead-letter record is gone; every other job, live or dead, is as before.
    For an id that is not in the dead-letter table the command ends with
    status 1 and both tables are as before. *)
Theorem dlq_retry_requeues (i : string) (w : world) :
  calm w → dlq_keyed w →
  let res := dlq_retry i w in
  (∀ x, find_dlq i (dlq w) = Some x →
     res.1 = 0
     ∧ find_row i (jobs res.2)
       = Some (mkRow (mkJob i (command (job_data x)) PENDING 0
                        (max_retries (job_data x)) (created_at (job_data x))
                        (clock w) None None) 0)
     ∧ find_dlq i (dlq res.2) = None
     ∧ (∀ k, k ≠ i → find_row k (jobs res.2) = find_row k (jobs w)
                     ∧ find_dlq k (dlq res.2) = find_dlq k (dlq w)))
  ∧ (find_dlq i (dlq w) = None →
     res.1 = 1 ∧ jobs res.2 = jobs w ∧ dlq res.2 = dlq w).
Proof.
  intros Hcalm Hkey res. subst res. unfold dlq_retry.
  rewrite (get_dlq_job_ok _ _ (calm_next_call_ok _ Hcalm)).
  destruct (find_dlq i (dlq w)) as [x|] eqn:Hx; cbn -[add_job remove_from_dlq];
    [|done].
  split; [|done]. intros ? [= <-].
  apply find_dlq_Some in Hx as [Hxi Hxd].
  assert (Hid : id (job_data x) = i).
  { rewrite <-Hxi. by eapply (proj1 (Forall_forall _ _) Hkey). }
  rewrite add_job_calm by (unfold calm in *; simpl; by rewrite Hcalm).
  unfold remove_from_dlq, storage_call, set_next_retry_at, set_updated_at,
    set_error_message, set_attempts, set_state. simpl. rewrite Hid.
  split_and!; try done.
  - rewrite find_row_app, find_row_remove_row, decide_True by done.
    simpl. by rewrite decide_True.
  - rewrite find_dlq_remove_dlq. by rewrite decide_True.
  - intros k Hk. split.
    + rewrite find_row_app, find_row_remove_row, decide_False by done.
      destruct (find_row k (jobs w)); [done|]. simpl. by rewrite decide_False.
    + rewrite find_dlq_remove_dlq. by rewrite decide_False.
Qed.

Lemma dlq_retry_requeues_witness :
  (dlq_retry "j1" (one_dead [])).1 = 0
  ∧ find_row "j1" (jobs (dlq_retry "j1" (one_dead [])).2)
    = Some (mkRow (mkJob "j1" "exit 1" PENDING 0 3 "2024-01-01T00:00:00Z" 100
                     None None) 0).
Proof.
  destruct (dlq_retry_requeues "j1" (one_dead []) eq_refl
              ltac:(repeat constructor)) as [H _].
  destruct (H _ eq_refl) as (H1 & H2 & _). done.
Defined.

(** ** A run that succeeds, and a run that cannot be dead-lettered *)

(** The job object after a run that succeeded. *)
Lemma execute_job_success_calm (stdout stderr : string) (j : Job) (w : world) :
  calm w →
  let j1 := processing_job (clock w) j in
  let jC := set_updated_at (clock w) (set_error_message None (set_state COMPLETED j1)) in
  _execute_job (Exited 0 stdout stderr) (j, w)
  = (Ok tt,
     (jC,
      mkWorld
        (update_locked_until (id j) 0
           (update_row (id j) (λ r, mkRow jC (locked_until r))
              (update_row (id j) (λ r, mkRow j1 (locked_until r)) (jobs w))))
        (dlq w) (config w) (clock w) []
        (trace w ++ [Called m_update_job (id j); Printed (LogExecuting (id j));
                     Printed (LogCompleted (id j)); Called m_update_job (id j);
                     Called m_release_job_lock (id j)]))).
Proof.
  unfold calm. destruct w as [js d c t fs tr]. simpl. intros ->.
  unfold _execute_job, bind, assign, the_job, update_job, on_store, storage_call,
    try_finally, execute_guarded, try_except, print, release_job_lock. simpl.
  unfold set_jobs, emit, processing_job. simpl.
  by rewrite <-!app_assoc.
Qed.



Lemma elem_of_update_row (i : string) (f : row → row) (js : list row) (r : row) :
  r ∈ update_row i f js
  ↔ ∃ r0, r0 ∈ js ∧ r = if decide (id (row_job r0) = i) then f r0 else r0.
Proof. unfold update_row. rewrite list_elem_of_fmap. naive_solver. Qed.

Lemma handle_job_failure_already_dead (error_text : string) (j : Job) (w : world)
    (x : dlq_row) :
  calm w →
  find_dlq (id j) (dlq w) = Some x →
  config_get "max_retries" 3 (config w) ≤ attempts j →
  _handle_job_failure error_text (j, w)
  = (Raise IntegrityError,
     (dead_job error_text j,
      mkWorld (jobs w) (dlq w) (config w) (clock w) []
        (((trace w ++ [Called m_get_config ""]) ++ [Printed (LogToDlq (id j))])
           ++ [Called m_move_to_dlq (id j)]))).
Proof.
  intros Hcalm Hx HM. rewrite (handle_job_failure_calm _ _ _ Hcalm). cbn zeta.
  rewrite bool_decide_eq_false_2 by lia. by rewrite Hx.
Qed.



(** ** The retry instant *)



(** ** Taking the next job *)

Lemma first_lockable_calm (l : list Job) (w : world) :
  calm w →
  ∃ res w',
    first_lockable l w = (Ok res, w')
    ∧ calm w' ∧ clock w' = clock w ∧ config w' = config w ∧ dlq w' = dlq w
    ∧ row_ids (jobs w') = row_ids (jobs w)
    ∧ match res with
      | Some job =>
          ∃ l1 j0 l2,
            l = l1 ++ j0 :: l2 ∧ Forall (held w) l1 ∧ ¬ held w j0
            ∧ job = claimed_job (clock w) j0
            ∧ select_locked_until (id j0) (jobs w') = Some (clock w + 300)
            ∧ (row_job <$> find_row (id j0) (jobs w')
               = (λ r, if decide (state j0 = FAILED) then job else row_job r)
                   <$> find_row (id j0) (jobs w))
            ∧ (∀ k, k ≠ id j0 → find_row k (jobs w') = find_row k (jobs w))
      | None => jobs w' = jobs w ∧ Forall (held w) l
      end.
Proof.
  revert w. induction l as [|j0 l IH]; intros w Hcalm.
  - exists None, w. simpl. unfold ret. split_and!; done.
  - simpl. unfold bind.
    rewrite (acquire_job_lock_ok _ _ _ (calm_next_call_ok _ Hcalm)).
    destruct (lock_is_free (clock w) (select_locked_until (id j0) (jobs w))) eqn:Hfree.
    + assert (Hsome : is_Some (find_row (id j0) (jobs w))).
      { unfold select_locked_until in Hfree.
        destruct (find_row (id j0) (jobs w)); [by eexists | done]. }
      destruct Hsome as [r Hr].
      set (w1 := set_jobs _ _).
      assert (Hcalm1 : calm w1) by (unfold calm in *; subst w1; simpl; by rewrite Hcalm).
      assert (Hlock : select_locked_until (id j0)
                        (update_locked_until (id j0) (clock w + 300) (jobs w))
                      = Some (clock w + 300)).
      { unfold select_locked_until, update_locked_until.
        rewrite find_row_update_row, decide_True, Hr by done. done. }
      destruct (decide (state j0 = FAILED)) as [Hs|Hs].
      * unfold with_job, bind, assign, update_job, on_store, ret. simpl.
        rewrite (storage_call_ok _ _ _ _ (calm_next_call_ok _ Hcalm1)). simpl.
        eexists _, _. split; [reflexivity|]. simpl.
        split_and!; try done.
        { unfold calm in *. simpl. by rewrite Hcalm. }
        { unfold update_locked_until. by rewrite !row_ids_update_row. }
        exists [], j0, l. unfold claimed_job. rewrite !decide_True by done.
        split_and!; try done.
        { unfold held. by rewrite Hfree. }
        { unfold select_locked_until in *. rewrite find_row_update_row by done.
          rewrite decide_True by done.
          destruct (find_row (id j0) (update_locked_until _ _ _)); naive_solver. }
        { unfold update_locked_until. rewrite !find_row_update_row by done.
          rewrite Hr. simpl. repeat case_decide; done. }
        { intros k Hk. unfold update_locked_until.
          rewrite !find_row_update_row by done. by rewrite !decide_False. }
      * unfold ret. eexists _, _. split; [reflexivity|].
        split_and!; try done.
        { subst w1. cbn [jobs set_jobs]. unfold update_locked_until.
          by rewrite row_ids_update_row. }
        exists [], j0, l. unfold claimed_job.
        split_and!; try done.
        { unfold held. by rewrite Hfree. }
        { by rewrite decide_False. }
        { subst w1. cbn [jobs set_jobs]. unfold update_locked_until.
          rewrite find_row_update_row by done. rewrite Hr. simpl.
          repeat case_decide; done. }
        { intros k Hk. subst w1. cbn [jobs set_jobs]. unfold update_locked_until.
          rewrite find_row_update_row by done. by rewrite decide_False. }
    + set (w1 := entered _ _ _).
      assert (Hcalm1 : calm w1) by (unfold calm in *; subst w1; simpl; by rewrite Hcalm).
      destruct (IH w1 Hcalm1) as (res & w' & Heq & Hc & Ht & Hcfg & Hd & Hids & Hres).
      exists res, w'. split; [done|].
      change (clock w1) with (clock w) in *. change (jobs w1) with (jobs w) in *.
      change (config w1) with (config w) in *. change (dlq w1) with (dlq w) in *.
      split_and!; try done.
      destruct res as [job|].
      * destruct Hres as (l1 & j1 & l2 & -> & Hheld & Hj1 & Hjob & Hlk & Hrow & Hoth).
        change (held w1) with (held w) in Hheld, Hj1.
        exists (j0 :: l1), j1, l2. split_and!; try done.
        by constructor.
      * destruct Hres as [Hj Hall]. change (held w1) with (held w) in Hall.
        split; [done|]. by constructor.
Qed.

Lemma get_ready_jobs_states (w : world) (l : list Job) :
  next_call_ok w →
  (get_ready_jobs w).1 = Ok l →
  Forall (λ j, state j = PENDING ∨ state j = FAILED) l.
Proof.
  intros Hok. rewrite (get_ready_jobs_ok _ Hok). simpl. intros [= <-].
  apply Forall_app. split; apply Forall_fmap, Forall_forall; intros r Hr; simpl.
  - rewrite merge_sort_Permutation in Hr.
    apply list_elem_of_filter in Hr as [? _]. by left.
  - apply list_elem_of_filter in Hr as [_ Hr].
    apply list_elem_of_filter in Hr as [_ Hr].
    apply list_elem_of_filter in Hr as [? _]. by right.
Qed.

Lemma claimed_job_id (now : Z) (j : Job) : id (claimed_job now j) = id j.
Proof. unfold claimed_job. by case_decide. Qed.

(** X17: [_get_next_job] on a store that does not fail.  It goes through what
    [get_ready_jobs] returns, in that order, passes the jobs whose lock is
    held without changing anything, and returns the first one whose lock is
    free: the object it returns is pending (a failed job has been brought
    back, with no [next_retry_at]), the job's lock runs until now + 300, and
    no other row has changed.  When every ready job is held it returns
    nothing and the table is as before. *)
Theorem get_next_job_takes_first_free (w : world) :
  calm w →
  ∃ ready res w',
    (get_ready_jobs w).1 = Ok ready
    ∧ _get_next_job w = (Ok res, w')
    ∧ dlq w' = dlq w ∧ config w' = config w
    ∧ match res with
      | Some job =>
          ∃ l1 j0 l2,
            ready = l1 ++ j0 :: l2 ∧ Forall (held w) l1 ∧ ¬ held w j0
            ∧ job = claimed_job (clock w) j0
            ∧ state job = PENDING
            ∧ (state j0 = FAILED → next_retry_at job = None)
            ∧ select_locked_until (id job) (jobs w') = Some (clock w + 300)
            ∧ (∀ k, k ≠ id job → find_row k (jobs w') = find_row k (jobs w))
      | None => jobs w' = jobs w ∧ Forall (held w) ready
      end.
Proof.
  intros Hcalm.
  pose proof (calm_next_call_ok _ Hcalm) as Hok.
  pose proof (get_ready_jobs_states w) as Hstates.
  unfold _get_next_job, bind. rewrite (get_ready_jobs_ok _ Hok) in *.
  set (ready := _ ++ _) in *. set (w1 := entered _ _ _).
  assert (Hcalm1 : calm w1) by (unfold calm in *; subst w1; simpl; by rewrite Hcalm).
  destruct (first_lockable_calm ready w1 Hcalm1)
    as (res & w' & Heq & _ & _ & Hcfg & Hd & _ & Hres).
  exists ready, res, w'. split_and!; try done.
  change (clock w1) with (clock w) in *. change (jobs w1) with (jobs w) in *.
  change (held w1) with (held w) in *.
  destruct res as [job|]; [|done].
  destruct Hres as (l1 & j0 & l2 & Hl & Hheld & Hj0 & Hjob & Hlk & _ & Hoth).
  exists l1, j0, l2. rewrite Hjob, claimed_job_id. split_and!; try done.
  - specialize (Hstates ready Hok eq_refl). rewrite Hl in Hstates.
    apply Forall_app in Hstates as [_ Hst]. apply Forall_cons in Hst as [Hst _].
    unfold claimed_job. case_decide; [done|]. by destruct Hst.
  - intros Hs. unfold claimed_job. by rewrite decide_True.
Qed.

Lemma get_next_job_takes_first_free_witness :
  ∃ job w',
    _get_next_job (one_due []) = (Ok (Some job), w')
    ∧ state job = PENDING
    ∧ select_locked_until (id job) (jobs w') = Some 400.
Proof.
  destruct (get_next_job_takes_first_free (one_due []) eq_refl)
    as (ready & res & w' & Hready & Heq & _ & _ & Hres).
  destruct res as [job|].
  - destruct Hres as (_ & _ & _ & _ & _ & _ & _ & Hs & _ & Hl & _).
    by exists job, w'.
  - destruct Hres as [_ Hall]. exfalso.
    vm_compute in Hready. injection Hready as <-.
    apply Forall_cons in Hall as [Hheld _]. vm_compute in Hheld. discriminate.
Defined.

(** ** A worker on a store that does not fail *)

Lemma retry_delay_bounds (backoff_base backoff_max attempts : Z) :
  0 ≤ backoff_base → 0 ≤ backoff_max → 1 ≤ attempts →
  0 ≤ retry_delay backoff_base backoff_max attempts ≤ backoff_max.
Proof.
  intros Hb Hm Ha. unfold retry_delay.
  pose proof (Z.pow_nonneg backoff_base (attempts - 1) Hb). lia.
Qed.

Lemma Forall_update_row (P : row → Prop) (i : string) (f : row → row) (js : list row) :
  Forall P js → (∀ r, P r → P (f r)) → Forall P (update_row i f js).
Proof.
  intros Hjs Hf. unfold update_row. apply Forall_fmap.
  eapply Forall_impl; [exact Hjs|]. intros r Hr. simpl. case_decide; auto.
Qed.

Lemma Forall_remove_row (P : row → Prop) (i : string) (js : list row) :
  Forall P js → Forall P (remove_row i js).
Proof.
  rewrite !Forall_forall. intros Hjs r Hr. unfold remove_row in Hr.
  apply list_elem_of_filter in Hr as [_ Hr]. by apply Hjs.
Qed.

Lemma get_ready_jobs_attempts (w : world) (l : list Job) :
  next_call_ok w → attempts_counted w →
  (get_ready_jobs w).1 = Ok l → Forall (λ j, 0 ≤ attempts j) l.
Proof.
  intros Hok Hw. rewrite (get_ready_jobs_ok _ Hok). simpl. intros [= <-].
  unfold attempts_counted in Hw. rewrite Forall_forall in Hw.
  apply Forall_app. split; apply Forall_fmap, Forall_forall; intros r Hr; simpl;
    apply Hw.
  - rewrite merge_sort_Permutation in Hr. by apply list_elem_of_filter in Hr as [_ ?].
  - apply list_elem_of_filter in Hr as [_ Hr].
    apply list_elem_of_filter in Hr as [_ Hr].
    by apply list_elem_of_filter in Hr as [_ ?].
Qed.

Lemma first_lockable_attempts (l : list Job) (w : world) :
  calm w → Forall (λ j, 0 ≤ attempts j) l → attempts_counted w →
  attempts_counted (first_lockable l w).2.
Proof.
  revert w. induction l as [|j0 l IH]; intros w Hcalm Hl Hw; [done|].
  apply Forall_cons in Hl as [Hj0 Hl]. simpl. unfold bind.
  rewrite (acquire_job_lock_ok _ _ _ (calm_next_call_ok _ Hcalm)).
  destruct (lock_is_free (clock w) (select_locked_until (id j0) (jobs w))).
  - set (w1 := set_jobs _ _).
    assert (Hcalm1 : calm w1) by (unfold calm in *; subst w1; simpl; by rewrite Hcalm).
    assert (Hw1 : attempts_counted w1).
    { subst w1. unfold attempts_counted, update_locked_until. cbn [jobs set_jobs].
      by apply Forall_update_row. }
    destruct (decide (state j0 = FAILED)); [|done].
    unfold with_job, bind, assign, update_job, on_store, ret. simpl.
    rewrite (storage_call_ok _ _ _ _ (calm_next_call_ok _ Hcalm1)). simpl.
    unfold attempts_counted. simpl. by apply Forall_update_row.
  - apply IH; [|done..]. unfold calm in *. simpl. by rewrite Hcalm.
Qed.

Lemma execute_job_calm (oc : outcome) (j : Job) (w : world) :
  calm w → find_dlq (id j) (dlq w) = None →
  0 ≤ attempts j → attempts_counted w →
  0 ≤ config_get "backoff_base" 2 (config w) →
  0 ≤ config_get "backoff_max_seconds" 600 (config w) →
  datetime_min ≤ clock w →
  clock w + config_get "backoff_max_seconds" 600 (config w) ≤ datetime_max →
  let res := _execute_job oc (j, w) in
  res.1 = Ok tt ∧ calm res.2.2 ∧ clock res.2.2 = clock w
  ∧ config res.2.2 = config w ∧ attempts_counted res.2.2.
Proof.
  intros Hcalm Hd Ha Hw Hb Hm Hmin Hmax res. subst res.
  assert (failing oc ∨ ∃ out err, oc = Exited 0 out err) as [Hf|(out & err & ->)].
  { destruct oc as [rc out err| |msg]; simpl; auto.
    destruct (decide (rc = 0)) as [->|]; eauto. }
  - destruct (execute_job_failing_calm oc j w Hcalm Hf Hd Ha)
      as (Hok & Hc & Ht & Hcfg & Hres).
    { intros _. pose proof (retry_delay_bounds _ _ (attempts j + 1) Hb Hm). lia. }
    split_and!; try done. unfold attempts_counted, update_locked_until in *.
    case_bool_decide; destruct Hres as (_ & _ & ->);
      repeat first [apply Forall_update_row | apply Forall_remove_row | done
                   | (intros r Hr; simpl; lia)].
  - rewrite (execute_job_success_calm _ _ _ _ Hcalm). cbn [fst snd].
    split_and!; try done. unfold attempts_counted, update_locked_until in *. simpl.
    repeat first [apply Forall_update_row | done | (intros r Hr; simpl; lia)].
Qed.

Lemma poll_cycle_calm (p : Z) (oc : outcome) (w : world) :
  calm w → exclusive w → attempts_counted w →
  0 ≤ config_get "backoff_base" 2 (config w) →
  0 ≤ config_get "backoff_max_seconds" 600 (config w) →
  0 ≤ p →
  datetime_min ≤ clock w →
  clock w + config_get "backoff_max_seconds" 600 (config w) ≤ datetime_max →
  ∃ w', poll_cycle p oc w = (Ok tt, w') ∧ calm w' ∧ exclusive w'
        ∧ attempts_counted w' ∧ config w' = config w
        ∧ clock w ≤ clock w' ≤ clock w + p.
Proof.
  intros Hcalm Hex Hw Hb Hm Hp Hmin Hmax.
  pose proof (keeps_poll_cycle p oc w Hex) as Hex'.
  unfold world_of, world_has_world in Hex'.
  enough (∃ w', poll_cycle p oc w = (Ok tt, w') ∧ calm w' ∧ attempts_counted w'
                ∧ config w' = config w ∧ clock w ≤ clock w' ≤ clock w + p)
    as (w' & Heq & Hc & ?).
  { exists w'. rewrite Heq in Hex'. done. }
  clear Hex'. unfold poll_cycle, bind.
  rewrite (clear_expired_locks_ok _ (calm_next_call_ok _ Hcalm)).
  set (w1 := set_jobs _ _).
  assert (Hcalm1 : calm w1) by (unfold calm in *; subst w1; simpl; by rewrite Hcalm).
  assert (Hex1 : exclusive w1).
  { pose proof (keeps_clear_expired_locks w Hex) as H.
    by rewrite (clear_expired_locks_ok _ (calm_next_call_ok _ Hcalm)) in H. }
  assert (Hw1 : attempts_counted w1).
  { subst w1. unfold attempts_counted in *. cbn [jobs set_jobs]. apply Forall_fmap.
    eapply Forall_impl; [exact Hw|]. intros r Hr. simpl. by case_bool_decide. }
  assert (Hcfg1 : config w1 = config w) by done.
  assert (Ht1 : clock w1 = clock w) by done.
  rewrite <-Hcfg1 in Hb, Hm, Hmax |- *. rewrite <-Ht1 in Hmin, Hmax |- *.
  clearbody w1. clear Hcalm Hex Hw Hcfg1 Ht1 w.
  unfold _get_next_job, bind.
  pose proof (λ l, get_ready_jobs_attempts w1 l (calm_next_call_ok _ Hcalm1) Hw1)
    as Hready.
  rewrite (get_ready_jobs_ok _ (calm_next_call_ok _ Hcalm1)) in *.
  set (ready := _ ++ _) in *. specialize (Hready ready eq_refl).
  set (w1' := entered _ _ _).
  assert (Hc1 : calm w1') by (unfold calm in *; subst w1'; simpl; by rewrite Hcalm1).
  pose proof (first_lockable_attempts ready w1' Hc1 Hready Hw1) as Hw2.
  destruct (first_lockable_calm ready w1' Hc1)
    as (res & w2 & Heq & Hcalm2 & Ht2 & Hcfg2 & Hd & Hids & Hres).
  rewrite Heq in Hw2. cbn [snd] in Hw2.
  change (dlq w1') with (dlq w1) in Hd. change (jobs w1') with (jobs w1) in Hids.
  change (clock w1') with (clock w1) in *. change (config w1') with (config w1) in *.
  rewrite Heq. destruct res as [job|].
  - destruct Hres as (l1 & j0 & l2 & Hl & _ & _ & Hjob & Hlk & _).
    assert (Hj0 : 0 ≤ attempts job).
    { rewrite Hl in Hready. apply Forall_app in Hready as [_ Hready].
      apply Forall_cons in Hready as [Hready _].
      rewrite Hjob. unfold claimed_job. by case_decide. }
    rewrite <-(claimed_job_id (clock w1) j0), <-Hjob in Hlk.
    assert (Hnone : find_dlq (id job) (dlq w2) = None).
    { apply find_dlq_None. intros Hin. rewrite Hd in Hin.
      apply (Hex1 (id job)); [|done]. rewrite <-Hids. apply find_row_is_Some.
      unfold select_locked_until in Hlk.
      destruct (find_row (id job) (jobs w2)); [by eexists | done]. }
    destruct (execute_job_calm oc job w2 Hcalm2 Hnone Hj0 Hw2)
      as (Hok & Hc & Ht & Hcfg & Hw3); try (rewrite ?Hcfg2, ?Ht2; done).
    unfold with_job. destruct (_execute_job oc (job, w2)) as [[[]|e] [j' w3]];
      simpl in *; [|done].
    unfold ret. eexists. split; [reflexivity|].
    split_and!; try done; try congruence; lia.
  - unfold sleep. rewrite bool_decide_eq_false_2 by lia.
    eexists. split; [reflexivity|]. destruct Hres as [Hj _].
    unfold calm, attempts_counted in *. simpl. split_and!; try done; lia.
Qed.



(** ** What a worker leaves alone *)

Section preserves.
Context {S : Type} (P : S → Prop).

Lemma preserves_ret {A} (a : A) : preserves P (ret a).
Proof. by intros s. Qed.

Lemma preserves_raise {A} (e : exn) : preserves P (raise (A := A) e).
Proof. by intros s. Qed.

Lemma preserves_backoff_delay b m a : preserves P (backoff_delay b m a).
Proof. unfold backoff_delay. case_bool_decide; by intros s. Qed.

Lemma preserves_add_seconds now delay : preserves P (add_seconds now delay).
Proof. unfold add_seconds. case_bool_decide; by intros s. Qed.

Lemma preserves_bind {A B} (m : M S A) (k : A → M S B) :
  preserves P m → (∀ a, preserves P (k a)) → preserves P (bind m k).
Proof.
  intros Hm Hk s Hs. unfold bind. specialize (Hm s Hs).
  destruct (m s) as [[a|e] s']; simpl in *; [|done].
  by apply Hk.
Qed.

Lemma preserves_try_except {A} (m : M S A) (h : exn → M S A) :
  preserves P m → (∀ e, preserves P (h e)) → preserves P (try_except m h).
Proof.
  intros Hm Hh s Hs. unfold try_except. specialize (Hm s Hs).
  destruct (m s) as [[a|e] s']; simpl in *; [done|].
  by apply Hh.
Qed.

Lemma preserves_try_finally {A} (m : M S A) (f : M S unit) :
  preserves P m → preserves P f → preserves P (try_finally m f).
Proof.
  intros Hm Hf s Hs. unfold try_finally. specialize (Hm s Hs).
  destruct (m s) as [r s']; simpl in *. specialize (Hf s' Hm).
  by destruct (f s') as [[[]|e] s''].
Qed.
End preserves.

Section works_on.
Context (i : string) (w0 : world).

Lemma others_as_in_same (w w' : world) :
  jobs w' = jobs w → dlq w' = dlq w → config w' = config w →
  others_as_in i w0 w → others_as_in i w0 w'.
Proof. unfold others_as_in. by intros -> -> ->. Qed.

Lemma others_as_in_storage_call {A} m arg (body : world → result A * world) (w : world) :
  (∀ w, others_as_in i w0 w → others_as_in i w0 (body w).2) →
  others_as_in i w0 w → others_as_in i w0 (storage_call m arg body w).2.
Proof.
  intros Hbody Hw. unfold storage_call.
  destruct w as [js d c t fs tr]; simpl.
  destruct fs as [|[] fs]; simpl; try apply Hbody; by eapply others_as_in_same, Hw.
Qed.

Lemma works_on_on_store {A} (m : M world A) :
  (∀ w, others_as_in i w0 w → others_as_in i w0 (m w).2) →
  preserves (works_on i w0) (on_store m).
Proof.
  intros Hm [j w] [Hid Hw]. unfold on_store. specialize (Hm w Hw).
  by destruct (m w) as [r w'].
Qed.

Lemma works_on_assign (f : Job → Job) :
  (∀ j, id (f j) = id j) → preserves (works_on i w0) (assign f).
Proof. intros Hf [j w] [Hid Hw]. split; [|done]. simpl. by rewrite Hf. Qed.

Lemma works_on_the_job {A} (k : Job → M (Job * world) A) :
  (∀ j, id j = i → preserves (works_on i w0) (k j)) →
  preserves (works_on i w0) (bind the_job k).
Proof. intros Hk [j w] Hs. unfold bind, the_job. apply Hk; [apply Hs | done]. Qed.

Lemma works_on_utcnow : preserves (works_on i w0) utcnow.
Proof. by intros [j w]. Qed.

Lemma works_on_print l : preserves (works_on i w0) (print l).
Proof. by intros [j w]. Qed.

Lemma works_on_update_job : preserves (works_on i w0) update_job.
Proof.
  intros [j w] [Hid Hw]. unfold update_job. simpl in Hid.
  refine (works_on_on_store _ _ (set_updated_at (clock w) j, w) _); [|done].
  intros w1. apply others_as_in_storage_call.
  intros w2 [Hc2 Hw2]. split; [done|]. intros k Hk. simpl.
  rewrite find_row_update_row by (by intros). rewrite decide_False by (simpl; congruence).
  by apply Hw2.
Qed.

Lemma works_on_move_to_dlq reason : preserves (works_on i w0) (move_to_dlq reason).
Proof.
  intros [j w] [Hid Hw]. unfold move_to_dlq. simpl in Hid.
  refine (works_on_on_store _ _ (j, w) _); [|done].
  intros w1. apply others_as_in_storage_call.
  intros w2 [Hc2 Hw2]. destruct (find_dlq (id j) (dlq w2)); [done|].
  split; [done|]. intros k Hk. simpl.
  rewrite find_row_remove_row, decide_False by congruence.
  rewrite find_dlq_app. destruct (Hw2 k Hk) as [-> <-].
  split; [done|]. destruct (find_dlq k (dlq w2)); [done|].
  unfold find_dlq. simpl. rewrite decide_False by congruence. done.
Qed.

Lemma works_on_get_config : preserves (works_on i w0) (on_store get_config).
Proof. apply works_on_on_store. intros w. by apply others_as_in_storage_call. Qed.

Lemma works_on_release_job_lock : preserves (works_on i w0) (on_store (release_job_lock i)).
Proof.
  apply works_on_on_store. intros w1. apply others_as_in_storage_call.
  intros w [Hc Hw]. split; [done|]. intros k Hk. simpl. unfold update_locked_until.
  rewrite find_row_update_row by done. rewrite decide_False by done. by apply Hw.
Qed.

Lemma works_on_handle_job_failure error_text :
  preserves (works_on i w0) (_handle_job_failure error_text).
Proof.
  unfold _handle_job_failure, _check_and_reschedule_failed_job.
  apply preserves_bind; [apply works_on_get_config|]. intros c.
  apply works_on_the_job. intros j _. case_bool_decide.
  - apply preserves_bind; [apply preserves_backoff_delay|]. intros delay.
    apply preserves_bind; [apply works_on_utcnow|]. intros now.
    apply preserves_bind; [apply preserves_add_seconds|]. intros next_retry.
    repeat (apply preserves_bind; [by apply works_on_assign|]; intros _).
    apply preserves_bind; [apply works_on_print|]. intros _.
    apply preserves_bind; [apply works_on_update_job|]. intros _.
    apply preserves_ret.
  - repeat (apply preserves_bind; [by apply works_on_assign|]; intros _).
    apply preserves_bind; [apply works_on_print|]. intros _.
    apply works_on_move_to_dlq.
Qed.

Lemma works_on_execute_guarded oc : preserves (works_on i w0) (execute_guarded oc).
Proof.
  destruct oc; simpl; auto using works_on_handle_job_failure.
  apply preserves_try_except; [|auto using works_on_handle_job_failure].
  case_bool_decide; [|apply works_on_handle_job_failure].
  repeat (apply preserves_bind; [by apply works_on_assign|]; intros _).
  apply works_on_the_job. intros j _.
  apply preserves_bind; [apply works_on_print|]. intros _.
  apply works_on_update_job.
Qed.

Lemma works_on_execute_job oc : preserves (works_on i w0) (_execute_job oc).
Proof.
  unfold _execute_job.
  apply preserves_bind; [by apply works_on_assign|]. intros _.
  apply works_on_the_job. intros j Hj.
  apply preserves_bind; [by apply works_on_assign|]. intros _.
  apply preserves_bind; [apply works_on_update_job|]. intros _.
  apply preserves_bind; [apply works_on_print|]. intros _.
  apply preserves_try_finally; [apply works_on_execute_guarded|].
  rewrite Hj. apply works_on_release_job_lock.
Qed.
End works_on.

(** X19: [_execute_job] touches its own job only.  Whatever the command
    does and whichever calls on the store fail, running a job leaves the
    configuration as it was, and the row of every other id as it was, in
    [jobs] and in [dlq]; and the object it worked on still has the id it was
    given. *)
Theorem execute_job_touches_its_job_only (oc : outcome) (j : Job) (w : world) :
  let res := _execute_job oc (j, w) in
  id res.2.1 = id j
  ∧ config res.2.2 = config w
  ∧ ∀ k, k ≠ id j →
      find_row k (jobs res.2.2) = find_row k (jobs w)
      ∧ find_dlq k (dlq res.2.2) = find_dlq k (dlq w).
Proof.
  intros res.
  destruct (works_on_execute_job (id j) w oc (j, w)) as (Hid & Hc & Hk); [|done].
  split; [done|]. split; [done|]. done.
Qed.

(** ** The remaining commands *)

Lemma remove_from_dlq_ok (i : string) (w : world) :
  next_call_ok w →
  remove_from_dlq i w
  = (Ok tt, set_dlq (remove_dlq i (dlq w)) (entered m_remove_from_dlq i w)).
Proof. intros Hok. unfold remove_from_dlq. by rewrite (storage_call_ok _ _ _ _ Hok). Qed.

(** X20: [queuectl dlq remove JOB_ID] on a store that does not fail.  When
    the id is in the dead-letter table the command ends with status 0, the
    record is gone and every other record is as before; when it is not, the
    command ends with status 1 and the table is as before.  Either way the
    live table is not touched. *)
Theorem dlq_remove_removes_that_record_only (i : string) (w : world) :
  calm w →
  let res := dlq_remove i w in
  (is_Some (find_dlq i (dlq w)) →
     res.1 = 0 ∧ find_dlq i (dlq res.2) = None
     ∧ ∀ k, k ≠ i → find_dlq k (dlq res.2) = find_dlq k (dlq w))
  ∧ (find_dlq i (dlq w) = None → res.1 = 1 ∧ dlq res.2 = dlq w)
  ∧ jobs res.2 = jobs w.
Proof.
  intros Hcalm res. subst res. unfold dlq_remove.
  rewrite (get_dlq_job_ok _ _ (calm_next_call_ok _ Hcalm)).
  destruct (find_dlq i (dlq w)) as [r|] eqn:Hr; cbn -[remove_from_dlq].
  - rewrite remove_from_dlq_ok.
    2:{ apply calm_next_call_ok. unfold calm in *. simpl. by rewrite Hcalm. }
    simpl. split_and!; try done. intros _. split_and!; try done.
    + rewrite find_dlq_remove_dlq. by rewrite decide_True.
    + intros k Hk. rewrite find_dlq_remove_dlq. by rewrite decide_False.
  - split_and!; try done; by intros [? ?].
Qed.

Lemma dlq_remove_removes_that_record_only_witness :
  (dlq_remove "j1" (one_dead [])).1 = 0
  ∧ find_dlq "j1" (dlq (dlq_remove "j1" (one_dead [])).2) = None.
Proof.
  destruct (dlq_remove_removes_that_record_only "j1" (one_dead []) eq_refl)
    as (H & _ & _).
  destruct H as (H1 & H2 & _); [by eexists | done].
Defined.

(** X21: the exit status of [queuectl enqueue] tells whether the job was
    stored, whatever the store does.  The status is 0 or 1.  After status 0
    the row of the job's id holds the job as given, with [updated_at] at
    now, no [next_retry_at] and no lock; every other row is as before.
    After status 1, which is what [add_job] raising gives, the live table is
    as before.  The dead-letter table and the configuration are never
    touched: an id that is dead is stored again all the same. *)
Theorem enqueue_status_tells (j : Job) (w : world) :
  let res := enqueue j w in
  (res.1 = 0 ∨ res.1 = 1)
  ∧ (res.1 = 0 →
       find_row (id j) (jobs res.2)
       = Some (mkRow (set_next_retry_at None (set_updated_at (clock w) j)) 0)
       ∧ ∀ k, k ≠ id j → find_row k (jobs res.2) = find_row k (jobs w))
  ∧ (res.1 = 1 → jobs res.2 = jobs w)
  ∧ dlq res.2 = dlq w ∧ config res.2 = config w.
Proof.
  intros res. subst res. unfold enqueue.
  destruct (decide (next_call_ok w)) as [Hok|Hno].
  - rewrite (add_job_ok _ _ Hok). cbn [fst snd]. split_and!; try done; [by left|].
    intros _. cbn [jobs set_jobs]. split.
    + rewrite find_row_app, find_row_remove_row, decide_True by done.
      simpl. by rewrite decide_True.
    + intros k Hk. rewrite find_row_app, find_row_remove_row, decide_False by done.
      destruct (find_row k (jobs w)); [done|]. simpl. by rewrite decide_False.
  - unfold add_job, on_store. rewrite (storage_call_fault _ _ _ _ Hno).
    cbn [fst snd]. split_and!; try done. by right.
Qed.

Lemma acquire_job_lock_then_refused_witness :
  (acquire_job_lock "j1" 300
     (set_clock 400 (acquire_job_lock "j1" 300 (one_pending [])).2)).1
  = Ok false.
Proof.
  apply (acquire_job_lock_then_refused "j1" 300 300 400 (one_pending []));
    [reflexivity | reflexivity | simpl; lia].
Defined.

(** ** The ceiling of the configuration *)


